(** * key-value-file-system: a shallow embedding of [src/index.ts]

    The class [KeyValueFileSystem] layers paths, JSON values and glob
    listings over a flat asynchronous key-value store.  This file embeds

    - the JavaScript string primitives the class uses,
    - the fragment of the [RegExp] engine that the patterns built by
      [regexFromSpec] exercise,
    - the [KeyValueStore] interface, its contract, and an in-memory store,
    - the methods of the class, as computations over the store that record
      every store call they make,

    and then proves the properties of the specification against them. *)

From Stdlib Require Import Ascii String.
From stdpp Require Import base option list strings gmap fin_maps.

(** ** JavaScript strings

    A JavaScript string is modelled as a [string] of 8-bit code units. *)

Module Js.

(** [s.slice(n)]: the characters of [s] from index [n] on. *)
Fixpoint slice (s : string) (n : nat) : string :=
  match n, s with
  | 0, _ => s
  | S n', String _ s' => slice s' n'
  | S _, EmptyString => EmptyString
  end.

(** [s.startsWith(p)]. *)
Definition startsWith (s p : string) : bool := String.prefix p s.

(** The text [+=] appends for [s[i]]: the character, or the text of
    [undefined] when [i] is out of range. *)
Definition text_of_index (o : option ascii) : string :=
  match o with
  | Some c => String c EmptyString
  | None => "undefined"
  end.

(** [l.join(sep)]. *)
Fixpoint join (sep : string) (l : list string) : string :=
  match l with
  | [] => EmptyString
  | [x] => x
  | x :: rest => x +:+ sep +:+ join sep rest
  end.

(** [s.replace(/[...]/g, "\\$&")]: every character that satisfies
    [special] is preceded by a backslash. *)
Fixpoint replace_escaping (special : ascii -> bool) (s : string) : string :=
  match s with
  | EmptyString => EmptyString
  | String c s' =>
      if special c
      then String "\"%char (String c (replace_escaping special s'))
      else String c (replace_escaping special s')
  end.

End Js.

(** ** The regular-expression engine

    [new RegExp(source)] and [regex.test(key)] belong to the JavaScript
    runtime.  The patterns [regexFromSpec] builds use literal characters,
    backslash-escaped syntax characters, [.], the quantifier [*], and the
    assertions [^] and [$]; this is the fragment modelled here.  The
    instance's prefix is spliced into the pattern as it is, so a prefix may
    bring any of these in as well. *)

Module RegExp.

(** A pattern character set: one character, or [.] (any character that is
    not a line terminator). *)
Inductive charset : Type :=
| CChar (c : ascii)
| CDot.

(** A term of the pattern: an assertion, or an atom with or without [*]. *)
Inductive term : Type :=
| AssertStart
| AssertEnd
| Atom (cs : charset) (star : bool).

Definition t : Type := list term.

(** The characters the pattern grammar reserves (SyntaxCharacter). *)
Definition syntax_char (c : ascii) : bool :=
  match c with
  | "^" | "$" | "\" | "." | "*" | "+" | "?"
  | "(" | ")" | "[" | "]" | "{" | "}" | "|" => true
  | _ => false
  end%char.

(** The identity escapes of the fragment: a backslash before a syntax
    character, before [-] or before [/] stands for that character. *)
Definition identity_escape (c : ascii) : bool :=
  syntax_char c || match c with "-" | "/" => true | _ => false end%char.

Inductive token : Type :=
| TStart
| TEnd
| TSet (cs : charset)
| TStar.

(** First pass: the pattern text as tokens.  [None] stands for a
    SyntaxError, and also for a construct outside the fragment (groups,
    classes, alternation, the other quantifiers, class escapes). *)
Fixpoint tokens (src : string) : option (list token) :=
  match src with
  | EmptyString => Some []
  | String c rest =>
      match c with
      | "^" => cons TStart <$> tokens rest
      | "$" => cons TEnd <$> tokens rest
      | "." => cons (TSet CDot) <$> tokens rest
      | "*" => cons TStar <$> tokens rest
      | "\" =>
          match rest with
          | EmptyString => None
          | String d rest' =>
              if identity_escape d
              then cons (TSet (CChar d)) <$> tokens rest'
              else None
          end
      | _ =>
          if syntax_char c then None
          else cons (TSet (CChar c)) <$> tokens rest
      end%char
  end.

(** Second pass: a [*] binds to the atom before it; a [*] with no atom
    before it is a SyntaxError (nothing to repeat). *)
Fixpoint terms (ts : list token) : option t :=
  match ts with
  | [] => Some []
  | TStart :: ts' => cons AssertStart <$> terms ts'
  | TEnd :: ts' => cons AssertEnd <$> terms ts'
  | TSet cs :: TStar :: ts' => cons (Atom cs true) <$> terms ts'
  | TSet cs :: ts' => cons (Atom cs false) <$> terms ts'
  | TStar :: _ => None
  end.

(** [new RegExp(source)]. *)
Definition compile (source : string) : option t :=
  tokens source ≫= terms.

Definition line_terminator (c : ascii) : bool :=
  match c with
  | "010" | "013" => true
  | _ => false
  end%char.

Definition accepts (cs : charset) (c : ascii) : bool :=
  match cs with
  | CChar d => bool_decide (c = d)
  | CDot => negb (line_terminator c)
  end.

(** [matches_at r at_start s]: the terms [r] match some prefix of [s],
    where [at_start] tells whether [s] begins at index 0 of the input.
    The fragment has no captures or back-references, so the backtracking
    search of the runtime succeeds exactly when some match exists. *)
Fixpoint matches_at (r : t) (at_start : bool) (s : string) : bool :=
  match r with
  | [] => true
  | AssertStart :: r' => at_start && matches_at r' at_start s
  | AssertEnd :: r' =>
      match s with
      | EmptyString => matches_at r' at_start s
      | String _ _ => false
      end
  | Atom cs false :: r' =>
      match s with
      | EmptyString => false
      | String c s' => accepts cs c && matches_at r' false s'
      end
  | Atom cs true :: r' =>
      (fix star (at_start : bool) (s : string) : bool :=
         matches_at r' at_start s
         || match s with
            | EmptyString => false
            | String c s' => accepts cs c && star false s'
            end) at_start s
  end.

(** The search of [test]: a match may start at any index of the input. *)
Fixpoint search (r : t) (at_start : bool) (s : string) : bool :=
  matches_at r at_start s
  || match s with
     | EmptyString => false
     | String _ s' => search r false s'
     end.

(** [regex.test(key)] for a regex without flags. *)
Definition test (r : t) (key : string) : bool := search r true key.

End RegExp.

(** ** The store collaborator

    [interface KeyValueStore]: each method as a function of the store's
    state.  The promise a method returns is awaited at once by every
    caller, so a call is one sequential step. *)

Class KeyValueStore (S : Type) : Type := {
  getAllKeys : S -> list string;
  getItem : S -> string -> option string;
  setItem : S -> string -> string -> S;
  removeItem : S -> string -> S;
  multiGet : S -> list string -> list (string * option string);
  multiSet : S -> list (string * string) -> S;
  multiRemove : S -> list string -> S;
}.

(** The contract a store is expected to honour: the keys are listed once
    each and are exactly those that hold a value; point writes upsert;
    point deletes forget one key; the batched forms act like their point
    forms, in the order given. *)
Class KeyValueStoreContract (S : Type) `{KeyValueStore S} : Prop := {
  getAllKeys_NoDup (s : S) : NoDup (getAllKeys s);
  elem_of_getAllKeys (s : S) (k : string) :
    k ∈ getAllKeys s ↔ is_Some (getItem s k);
  getItem_setItem (s : S) (k v k' : string) :
    getItem (setItem s k v) k' = if decide (k' = k) then Some v else getItem s k';
  getItem_removeItem (s : S) (k k' : string) :
    getItem (removeItem s k) k' = if decide (k' = k) then None else getItem s k';
  multiGet_getItem (s : S) (ks : list string) :
    multiGet s ks = (λ k, (k, getItem s k)) <$> ks;
  getItem_multiSet (s : S) (kvs : list (string * string)) (k : string) :
    getItem (multiSet s kvs) k
    = getItem (foldl (λ s' kv, setItem s' kv.1 kv.2) s kvs) k;
  getItem_multiRemove (s : S) (ks : list string) (k : string) :
    getItem (multiRemove s ks) k
    = if decide (k ∈ ks) then None else getItem s k;
}.

(** An in-memory store: a finite map from keys to texts. *)
Global Instance MemoryStore : KeyValueStore (gmap string string) := {|
  getAllKeys m := elements (dom m);
  getItem m k := m !! k;
  setItem m k v := <[k:=v]> m;
  removeItem m k := delete k m;
  multiGet m ks := (λ k, (k, m !! k)) <$> ks;
  multiSet m kvs := foldl (λ m' kv, <[kv.1:=kv.2]> m') m kvs;
  multiRemove m ks := foldl (λ m' k, delete k m') m ks;
|}.

(** ** Computations over the store *)

(** What a method throws: [new Error(message)], or the SyntaxError of the
    runtime ([new RegExp], [JSON.parse]). *)
Inductive Exn : Type :=
| Error (message : string)
| SyntaxError (what : string).

(** How a call ends: with a value, or by throwing (for an [async] method:
    a promise that resolves, or one that rejects). *)
Inductive Result (A : Type) : Type :=
| Ok (a : A)
| Throw (e : Exn).
Global Arguments Ok {A} a.
Global Arguments Throw {A} e.

Global Instance Result_ret : MRet Result := λ A a, Ok a.
Global Instance Result_bind : MBind Result := λ A B f r,
  match r with
  | Ok a => f a
  | Throw e => Throw e
  end.

(** One call of a store method, as the store sees it. *)
Inductive StoreCall : Type :=
| CallGetAllKeys
| CallGetItem (key : string)
| CallSetItem (key value : string)
| CallRemoveItem (key : string)
| CallMultiGet (keys : list string)
| CallMultiSet (keyValuePairs : list (string * string))
| CallMultiRemove (keys : list string).

(** The world a method runs in: the state of the store, and the calls the
    store has received so far, oldest first. *)
Record World (S : Type) : Type := mkWorld {
  state : S;
  calls : list StoreCall;
}.
Global Arguments mkWorld {S} state calls.
Global Arguments state {S} w.
Global Arguments calls {S} w.

(** A computation: from the world before to how it ended and the world
    after. *)
Definition Action (S A : Type) : Type := World S -> Result A * World S.

Global Instance Action_ret {S} : MRet (Action S) := λ A a w, (Ok a, w).
Global Instance Action_bind {S} : MBind (Action S) := λ A B f m w,
  match m w with
  | (Ok a, w') => f a w'
  | (Throw e, w') => (Throw e, w')
  end.

(** A step that touches nothing of the store. *)
Definition pure {S A} (r : Result A) : Action S A := λ w, (r, w).

(** [this.store.method(...)], awaited. *)
Module store.
Section calls.
Context {S : Type} `{KeyValueStore S}.

Definition perform {A} (c : StoreCall) (answer : S -> A) (next : S -> S)
  : Action S A :=
  λ w, (Ok (answer (state w)), mkWorld (next (state w)) (calls w ++ [c])).

Definition getAllKeys : Action S (list string) :=
  perform CallGetAllKeys (λ s, getAllKeys s) id.
Definition getItem (key : string) : Action S (option string) :=
  perform (CallGetItem key) (λ s, getItem s key) id.
Definition setItem (key value : string) : Action S unit :=
  perform (CallSetItem key value) (λ _, tt) (λ s, setItem s key value).
Definition removeItem (key : string) : Action S unit :=
  perform (CallRemoveItem key) (λ _, tt) (λ s, removeItem s key).
Definition multiGet (keys : list string)
  : Action S (list (string * option string)) :=
  perform (CallMultiGet keys) (λ s, multiGet s keys) id.
Definition multiSet (keyValuePairs : list (string * string))
  : Action S unit :=
  perform (CallMultiSet keyValuePairs) (λ _, tt)
    (λ s, multiSet s keyValuePairs).
Definition multiRemove (keys : list string) : Action S unit :=
  perform (CallMultiRemove keys) (λ _, tt) (λ s, multiRemove s keys).
End calls.
End store.

(** ** The codec collaborator

    [JSON.stringify] and [JSON.parse] over the type [T] of the values a
    caller stores; [JSON_parse] is [None] where the runtime throws. *)
Class Json (T : Type) : Type := {
  JSON_stringify : T -> string;
  JSON_parse : string -> option T;
}.

(** [interface PathValue<T>]. *)
Record PathValue (T : Type) : Type := mkPathValue {
  path : string;
  value : T;
}.
Global Arguments mkPathValue {T} path value.
Global Arguments path {T} p.
Global Arguments value {T} p.

(** ** The class [KeyValueFileSystem] *)

(** An instance keeps its prefix; its [store] field is the store of the
    world its methods run in. *)
Record KeyValueFileSystem : Type := mkKeyValueFileSystem {
  prefix : string;
}.

(** [constructor(store, keyNamespacePrefix = "/kvfs")]. *)
Definition constructor (keyNamespacePrefix : option string)
  : Result KeyValueFileSystem :=
  let keyNamespacePrefix := default "/kvfs" keyNamespacePrefix in
  if String.length keyNamespacePrefix =? 0
  then Throw (Error "keyNamespacePrefix must not be empty. This protects you from        accidentally deleting everything else in your store.")
  else Ok (mkKeyValueFileSystem keyNamespacePrefix).

(** [private validatePath(path)]. *)
Definition validatePath (path : string) : Result unit :=
  if String.length path =? 0
  then Throw (Error "spec or path must not be empty")
  else Ok tt.

(** The loop of [regexFromSpec].  The cursor [i] is kept as the unread
    text [spec.slice(i)]; an escape reads one character more, and reads
    [undefined] when there is none. *)
Fixpoint scanSpec (unread : string) (segments : list string)
    (curSegment : string) : list string * string :=
  match unread with
  | EmptyString => (segments, curSegment)
  | String char rest =>
      match char with
      | "\" =>
          match rest with
          | EmptyString =>
              (segments, curSegment +:+ Js.text_of_index None)
          | String next rest' =>
              scanSpec rest' segments
                (curSegment +:+ Js.text_of_index (Some next))
          end
      | "*" =>
          if negb (String.length curSegment =? 0)%nat
          then scanSpec rest (segments ++ [curSegment]) EmptyString
          else scanSpec rest segments curSegment
      | _ => scanSpec rest segments (curSegment +:+ String char EmptyString)
      end%char
  end.

(** The segments once the loop has ended and the last one is pushed. *)
Definition segmentsOfSpec (spec : string) : list string :=
  let '(segments, curSegment) := scanSpec spec [] EmptyString in
  if negb (String.length curSegment =? 0)
  then segments ++ [curSegment]
  else segments.

(** The class of [/[.*+\-?^${}()|[\]\\]/]. *)
Definition regexSpecial (c : ascii) : bool :=
  match c with
  | "." | "*" | "+" | "-" | "?" | "^" | "$" | "{" | "}"
  | "(" | ")" | "|" | "[" | "]" | "\" => true
  | _ => false
  end%char.

(** [spec[spec.length - 1] === "*"]. *)
Definition lastIsStar (spec : string) : bool :=
  bool_decide (String.get (String.length spec - 1) spec = Some "*"%char).

(** The text [regexFromSpec] hands to [new RegExp]. *)
Definition regexSource (this : KeyValueFileSystem) (spec : string) : string :=
  let segRegex :=
    Js.join ".*" (Js.replace_escaping regexSpecial <$> segmentsOfSpec spec) in
  "^" +:+ prefix this +:+ segRegex
      +:+ (if lastIsStar spec then ".*" else "") +:+ "$".

(** [private regexFromSpec(spec)]; the SyntaxError of [new RegExp] is
    thrown on.  A pattern outside the modelled fragment, which only a
    prefix can bring about, ends the same way here; nothing is stated
    about such prefixes. *)
Definition regexFromSpec (this : KeyValueFileSystem) (spec : string)
  : Result RegExp.t :=
  match RegExp.compile (regexSource this spec) with
  | Some regex => Ok regex
  | None => Throw (SyntaxError (regexSource this spec))
  end.

(** [basePath ? `${basePath}${subPath}` : subPath], for [basePath]
    a string or [undefined]. *)
Definition fullPathOf (basePath : option string) (subPath : string) : string :=
  match basePath with
  | Some (String c b) => String c b +:+ subPath
  | Some EmptyString | None => subPath
  end.

(** [spec || "*"], for [spec] a string or [undefined]. *)
Definition specOrStar (spec : option string) : string :=
  match spec with
  | Some (String c s) => String c s
  | Some EmptyString | None => "*"
  end.

Section methods.
Context {S : Type} `{KeyValueStore S} {T : Type} `{Json T}.
Variable this : KeyValueFileSystem.

(** [async ls(spec?)]. *)
Definition ls (spec : option string) : Action S (list string) :=
  let normalizedSpec := specOrStar spec in
  keys ← store.getAllKeys;
  regex ← pure (regexFromSpec this normalizedSpec);
  mret ((λ key, Js.slice key (String.length (prefix this)))
          <$> filter (λ key, RegExp.test regex key = true) keys).

(** [async read<T>(path)]. *)
Definition read (path : string) : Action S (option T) :=
  _ ← pure (validatePath path);
  item ← store.getItem (prefix this +:+ path);
  match item with
  | Some text =>
      match JSON_parse text with
      | Some v => mret (Some v)
      | None => pure (Throw (SyntaxError text))
      end
  | None => mret None
  end.

(** The callback of [values.map] in [readMulti]. *)
Definition decodeEntry (entry : string * option string)
  : Result (PathValue (option T)) :=
  let '(path, str) := entry in
  value ← match str with
          | Some (String c s) =>
              match JSON_parse (String c s) with
              | Some v => Ok (Some v)
              | None => Throw (SyntaxError (String c s))
              end
          | Some EmptyString | None => Ok None
          end;
  mret (mkPathValue (Js.slice path (String.length (prefix this))) value).

(** [async readMulti<T>(spec)]. *)
Definition readMulti (spec : string)
  : Action S (list (PathValue (option T))) :=
  keys ← ls (Some spec);
  values ← store.multiGet ((λ key, prefix this +:+ key) <$> keys);
  pure (mapM decodeEntry values).

(** [async write<T>(path, value)]. *)
Definition write (path : string) (value : T) : Action S unit :=
  _ ← pure (validatePath path);
  store.setItem (prefix this +:+ path) (JSON_stringify value).

(** The callback of [values.map] in [writeMulti]. *)
Definition encodeEntry (basePath : option string) (entry : PathValue T)
  : Result (string * string) :=
  let fullPath := fullPathOf basePath (path entry) in
  _ ← validatePath fullPath;
  mret (prefix this +:+ fullPath, JSON_stringify (value entry)).

(** [async writeMulti<T>(basePath, values)]. *)
Definition writeMulti (basePath : option string) (values : list (PathValue T))
  : Action S unit :=
  if length values =? 0 then mret tt
  else
    keyValues ← pure (mapM (encodeEntry basePath) values);
    store.multiSet keyValues.

(** [async rm(path)]. *)
Definition rm (path : string) : Action S unit :=
  _ ← pure (validatePath path);
  store.removeItem (prefix this +:+ path).

(** [async rmAllForce()]. *)
Definition rmAllForce : Action S unit :=
  keys ← store.getAllKeys;
  let ourKeys := filter (λ key, Js.startsWith key (prefix this) = true) keys in
  store.multiRemove ourKeys.

(** Modelled from the spec: [rmMulti], the [removeMulti(paths)] of the
    specification, is called by the tests but is not a method of the class
    in [src/index.ts].  Its row reads: a list of literal paths; the empty
    list is a no-op that performs zero store operations; otherwise it
    batch-removes the given exact paths. *)
Definition rmMulti (paths : list string) : Action S unit :=
  if length paths =? 0 then mret tt
  else store.multiRemove ((λ path, prefix this +:+ path) <$> paths).

End methods.

(** ** Vocabulary of the proofs *)

(** The text [s] holds no character the pattern grammar reserves, so that
    it reads as itself inside a pattern. *)
Fixpoint plainText (s : string) : bool :=
  match s with
  | EmptyString => true
  | String c s' => negb (RegExp.syntax_char c) && plainText s'
  end.

(** The terms that match the text [s] and nothing else. *)
Fixpoint literal (s : string) : RegExp.t :=
  match s with
  | EmptyString => []
  | String c s' => RegExp.Atom (RegExp.CChar c) false :: literal s'
  end.

(** The same text as the tokens of a pattern. *)
Fixpoint literalTokens (s : string) : list RegExp.token :=
  match s with
  | EmptyString => []
  | String c s' => RegExp.TSet (RegExp.CChar c) :: literalTokens s'
  end.

Definition anyTextTokens : list RegExp.token :=
  [RegExp.TSet RegExp.CDot; RegExp.TStar].

Fixpoint globTokens (segments : list string) : list RegExp.token :=
  match segments with
  | [] => []
  | [seg] => literalTokens seg
  | seg :: rest => literalTokens seg ++ anyTextTokens ++ globTokens rest
  end.

(** A token list a literal may stand before: it does not begin with [*]. *)
Definition noLeadingStar (ts : list RegExp.token) : Prop :=
  match ts with
  | RegExp.TStar :: _ => False
  | _ => True
  end.

Definition anyText : RegExp.term := RegExp.Atom RegExp.CDot true.

(** The terms of a glob: the segments as literals, [.*] between them, an
    open or an anchored end. *)
Fixpoint globSegments (segments : list string) : RegExp.t :=
  match segments with
  | [] => []
  | [seg] => literal seg
  | seg :: rest => literal seg ++ anyText :: globSegments rest
  end.

Definition globTerms (pre : string) (segments : list string) (open : bool)
  : RegExp.t :=
  RegExp.AssertStart
    :: literal pre ++ globSegments segments
    ++ (if open then [anyText] else []) ++ [RegExp.AssertEnd].

(** The error of [validatePath]. *)
Definition emptyPathError : Exn := Error "spec or path must not be empty".

(** A codec for the two JSON literals [true] and [false]. *)
Global Instance BoolJson : Json bool := {|
  JSON_stringify b := if b : bool then "true" else "false";
  JSON_parse text :=
    if bool_decide (text = "true") then Some true
    else if bool_decide (text = "false") then Some false
    else None;
|}.

(** The default instance, [new KeyValueFileSystem(store)]. *)
Definition kvfs : KeyValueFileSystem := mkKeyValueFileSystem "/kvfs".

(** A store shared with another part of the application. *)
Definition sharedStore : gmap string string :=
  list_to_map
    [("foo", "secretstuff"); ("bar", "secretstuff");
     ("/kvfs/home", "true"); ("/kvfs/page", "false"); ("/kvfs/draft", "")].

Definition ballStore : gmap string string :=
  list_to_map
    [("/kvfs/baseball", "true"); ("/kvfs/basketball", "true");
     ("/kvfs/ball", "true"); ("/kvfs/baller", "true");
     ("/kvfs/basketweaving", "true")].

(** A store that holds the key a lone backslash asks for. *)
Definition oddStore : gmap string string :=
  list_to_map [("/kvfsundefined", "true"); ("/kvfs/home", "false")].

(** An instance whose prefix holds a character the pattern grammar
    reserves, and a store it shares with a key [apple] of somebody else. *)
Definition appDot : KeyValueFileSystem := mkKeyValueFileSystem "app.".

Definition appStore : gmap string string :=
  list_to_map [("apple", "secretstuff"); ("app./home", "true")].

(** A store with a key that ends in a star, and one that goes on after it. *)
Definition starStore : gmap string string :=
  list_to_map [("/kvfs/a*", "true"); ("/kvfs/a*b", "false")].

(** The keys of the escaping example. *)
Definition escapeStore : gmap string string :=
  list_to_map
    [("/kvfs/base**ll", "true"); ("/kvfs/ba*ketball", "true");
     ("/kvfs/basketweaving", "true")].

(** The text ends inside an escape: its last character is a backslash that
    no backslash before it escapes. *)
Fixpoint danglingEscape (s : string) : bool :=
  match s with
  | EmptyString => false
  | String c rest =>
      match c, rest with
      | "\"%char, EmptyString => true
      | "\"%char, String _ rest' => danglingEscape rest'
      | _, _ => danglingEscape rest
      end
  end.

(** The text holds no line terminator. *)
Fixpoint oneLine (s : string) : bool :=
  match s with
  | EmptyString => true
  | String c s' => negb (RegExp.line_terminator c) && oneLine s'
  end.

Definition fresh {S : Type} (s : S) : World S := mkWorld s [].

(** The world after one more store call that leaves the state as it is. *)
Definition called {S : Type} (c : StoreCall) (w : World S) : World S :=
  mkWorld (state w) (calls w ++ [c]).

(** What [multiGet] answers for the paths [ls] returned. *)
Definition fetched {S : Type} `{KeyValueStore S} (this : KeyValueFileSystem)
    (w : World S) (paths : list string) : list (string * option string) :=
  (λ p, (prefix this +:+ p, getItem (state w) (prefix this +:+ p))) <$> paths.

(** The stored text decodes: it is absent, empty, or text the codec
    reads. *)
Definition decodes {T : Type} `{Json T} (str : option string) : Prop :=
  match str with
  | Some (String c s) => is_Some (JSON_parse (T:=T) (String c s))
  | Some EmptyString | None => True
  end.

(** The pairs [writeMulti] hands to [multiSet] when every entry passes
    [validatePath]. *)
Definition keyValuesOf {T : Type} `{Json T} (this : KeyValueFileSystem)
    (basePath : option string) (values : list (PathValue T))
  : list (string * string) :=
  (λ entry, (prefix this +:+ fullPathOf basePath (path entry),
             JSON_stringify (value entry))) <$> values.

(** The world after [write] of each entry in turn, at its combined path. *)
Definition writesInTurn {S : Type} `{KeyValueStore S} {T : Type} `{Json T}
    (this : KeyValueFileSystem) (basePath : option string)
    (values : list (PathValue T)) (w : World S) : World S :=
  foldl (λ w' entry,
           snd (write this (fullPathOf basePath (path entry)) (value entry) w'))
    w values.

(** What a glob asks of the text after the prefix: the segments in order,
    the first at the very start, text without line terminator between one
    and the next, and after the last segment either nothing or, for an
    open end, text without line terminator. *)
Fixpoint globMatches (segments : list string) (open : bool) (rest : string)
  : Prop :=
  match segments with
  | [] => if open then oneLine rest = true else rest = ""
  | [seg] =>
      ∃ tail, rest = seg +:+ tail
              ∧ if open then oneLine tail = true else tail = ""
  | seg :: more =>
      ∃ gap rest', rest = seg +:+ gap +:+ rest'
                   ∧ oneLine gap = true ∧ globMatches more open rest'
  end.

(** The terms hold no [^]. *)
Definition startFree (r : RegExp.t) : Prop :=
  Forall (λ term, term ≠ RegExp.AssertStart) r.

(** The spec holds no star and no backslash. *)
Fixpoint noWildcard (s : string) : bool :=
  match s with
  | EmptyString => true
  | String c s' =>
      match c with
      | "\" | "*" => false
      | _ => noWildcard s'
      end%char
  end.

(** The loop of [regexFromSpec] with its cursor [i] as the source has it;
    [fuel] bounds the number of iterations, and [None] tells that the bound
    was reached before the loop had ended. *)
Fixpoint regexLoop (fuel : nat) (spec : string) (i : nat)
    (segments : list string) (curSegment : string)
  : option (list string * string) :=
  if i <? String.length spec then
    match fuel with
    | 0 => None
    | S fuel' =>
        match String.get i spec with
        | Some "\"%char =>
            regexLoop fuel' spec (i + 1 + 1) segments
              (curSegment +:+ Js.text_of_index (String.get (i + 1) spec))
        | Some "*"%char =>
            if negb (String.length curSegment =? 0)
            then regexLoop fuel' spec (i + 1) (segments ++ [curSegment]) ""
            else regexLoop fuel' spec (i + 1) segments curSegment
        | char =>
            regexLoop fuel' spec (i + 1) segments
              (curSegment +:+ Js.text_of_index char)
        end
    end
  else Some (segments, curSegment).

(** * Properties *)

(** ** Strings *)

Lemma append_cons (c : ascii) (a b : string) :
  String c a +:+ b = String c (a +:+ b).
Proof. reflexivity. Qed.

Lemma append_nil_l (s : string) : "" +:+ s = s.
Proof. reflexivity. Qed.

Lemma append_nil_r (s : string) : s +:+ "" = s.
Proof. induction s as [|c s IH]; [done|]. by rewrite append_cons, IH. Qed.

Lemma append_assoc (a b c : string) : (a +:+ b) +:+ c = a +:+ b +:+ c.
Proof. induction a as [|x a IH]; [done|]. by rewrite !append_cons, IH. Qed.

Lemma append_length (a b : string) :
  String.length (a +:+ b) = String.length a + String.length b.
Proof. induction a as [|x a IH]; [done|]. rewrite append_cons. simpl. by rewrite IH. Qed.

Lemma slice_append (p r : string) : Js.slice (p +:+ r) (String.length p) = r.
Proof. induction p as [|c p IH]; [by destruct r|]. by rewrite append_cons. Qed.

Lemma startsWith_append (p r : string) : Js.startsWith (p +:+ r) p = true.
Proof.
  unfold Js.startsWith. induction p as [|c p IH].
  - by destruct r.
  - rewrite append_cons. simpl. destruct (ascii_dec c c); [done|congruence].
Qed.

Lemma startsWith_inv (s p : string) :
  Js.startsWith s p = true → ∃ r, s = p +:+ r.
Proof.
  unfold Js.startsWith. revert s. induction p as [|c p IH]; intros s Hs.
  - by exists s.
  - destruct s as [|d s]; simpl in Hs; [done|].
    destruct (ascii_dec c d) as [->|]; [|done].
    destruct (IH _ Hs) as [r ->]. by exists r.
Qed.

(** ** Reading a pattern *)

Lemma tokens_plain_char (c : ascii) (rest : string) :
  RegExp.syntax_char c = false →
  RegExp.tokens (String c rest)
  = cons (RegExp.TSet (RegExp.CChar c)) <$> RegExp.tokens rest.
Proof.
  destruct c as [[] [] [] [] [] [] [] []]; intros Hc;
    solve [discriminate Hc | reflexivity].
Qed.

Lemma tokens_escaped_char (c : ascii) (rest : string) :
  regexSpecial c = true →
  RegExp.tokens (String "\" (String c rest))
  = cons (RegExp.TSet (RegExp.CChar c)) <$> RegExp.tokens rest.
Proof.
  destruct c as [[] [] [] [] [] [] [] []]; intros Hc;
    solve [discriminate Hc | reflexivity].
Qed.

Lemma regexSpecial_covers (c : ascii) :
  regexSpecial c = false → RegExp.syntax_char c = false.
Proof. destruct c as [[] [] [] [] [] [] [] []]; intros Hc; solve [discriminate Hc | reflexivity]. Qed.

Lemma fmap_cons_app {A} (x : A) (l : list A) (o : option (list A)) :
  cons x <$> ((l ++.) <$> o) = ((x :: l) ++.) <$> o.
Proof. by destruct o. Qed.

Lemma fmap_app_app {A} (l1 l2 : list A) (o : option (list A)) :
  (l1 ++.) <$> ((l2 ++.) <$> o) = ((l1 ++ l2) ++.) <$> o.
Proof. destruct o; simpl; [|done]. by rewrite (assoc_L (++)). Qed.

Lemma tokens_plain (p rest : string) :
  plainText p = true →
  RegExp.tokens (p +:+ rest) = (literalTokens p ++.) <$> RegExp.tokens rest.
Proof.
  induction p as [|c p IH]; intros Hp.
  - rewrite append_nil_l. by destruct (RegExp.tokens rest).
  - simpl in Hp. apply andb_prop in Hp as [Hc Hp].
    apply negb_true_iff in Hc.
    rewrite append_cons, tokens_plain_char, IH by done.
    apply fmap_cons_app.
Qed.

Lemma tokens_escaped (seg rest : string) :
  RegExp.tokens (Js.replace_escaping regexSpecial seg +:+ rest)
  = (literalTokens seg ++.) <$> RegExp.tokens rest.
Proof.
  induction seg as [|c seg IH].
  - rewrite append_nil_l. by destruct (RegExp.tokens rest).
  - cbn [Js.replace_escaping]. destruct (regexSpecial c) eqn:Hc.
    + rewrite !append_cons, tokens_escaped_char, IH by done.
      apply fmap_cons_app.
    + rewrite append_cons, tokens_plain_char, IH
        by auto using regexSpecial_covers.
      apply fmap_cons_app.
Qed.

Lemma tokens_anyText (rest : string) :
  RegExp.tokens (".*" +:+ rest) = (anyTextTokens ++.) <$> RegExp.tokens rest.
Proof.
  change (".*" +:+ rest) with (String "." (String "*" rest)).
  cbn [RegExp.tokens]. by destruct (RegExp.tokens rest).
Qed.

Lemma tokens_join (segments : list string) (rest : string) :
  RegExp.tokens
    (Js.join ".*" (Js.replace_escaping regexSpecial <$> segments) +:+ rest)
  = (globTokens segments ++.) <$> RegExp.tokens rest.
Proof.
  induction segments as [|seg [|seg' segments] IH].
  - rewrite append_nil_l. by destruct (RegExp.tokens rest).
  - apply tokens_escaped.
  - change (Js.join ".*" (Js.replace_escaping regexSpecial <$> seg :: seg' :: segments))
      with (Js.replace_escaping regexSpecial seg +:+ ".*"
            +:+ Js.join ".*" (Js.replace_escaping regexSpecial <$> seg' :: segments)).
    rewrite !append_assoc, tokens_escaped, tokens_anyText, IH.
    rewrite !fmap_app_app. 
    change (globTokens (seg :: seg' :: segments))
      with (literalTokens seg ++ anyTextTokens ++ globTokens (seg' :: segments)).
    by rewrite !(assoc_L (++)).
Qed.

Lemma terms_set (cs : RegExp.charset) (ts : list RegExp.token) :
  noLeadingStar ts →
  RegExp.terms (RegExp.TSet cs :: ts)
  = cons (RegExp.Atom cs false) <$> RegExp.terms ts.
Proof. by destruct ts as [|[] ts]. Qed.

Lemma noLeadingStar_literal (s : string) (ts : list RegExp.token) :
  noLeadingStar ts → noLeadingStar (literalTokens s ++ ts).
Proof. by destruct s. Qed.

Lemma noLeadingStar_glob (segments : list string) (ts : list RegExp.token) :
  noLeadingStar ts → noLeadingStar (globTokens segments ++ ts).
Proof.
  intros Hts. destruct segments as [|seg [|seg' segments]]; [done|..].
  - by apply noLeadingStar_literal.
  - cbn [globTokens]. rewrite <-(assoc_L (++)).
    by apply noLeadingStar_literal.
Qed.

Lemma terms_literal (s : string) (ts : list RegExp.token) :
  noLeadingStar ts →
  RegExp.terms (literalTokens s ++ ts) = (literal s ++.) <$> RegExp.terms ts.
Proof.
  intros Hts. induction s as [|c s IH].
  - cbn [literalTokens literal app]. by destruct (RegExp.terms ts).
  - cbn [literalTokens app].
    rewrite terms_set by (by apply noLeadingStar_literal).
    rewrite IH. by destruct (RegExp.terms ts).
Qed.

Lemma terms_anyText (ts : list RegExp.token) :
  RegExp.terms (anyTextTokens ++ ts) = cons anyText <$> RegExp.terms ts.
Proof. reflexivity. Qed.

Lemma terms_glob (segments : list string) (ts : list RegExp.token) :
  noLeadingStar ts →
  RegExp.terms (globTokens segments ++ ts)
  = (globSegments segments ++.) <$> RegExp.terms ts.
Proof.
  intros Hts. induction segments as [|seg [|seg' segments] IH].
  - cbn [globTokens globSegments app]. by destruct (RegExp.terms ts).
  - by apply terms_literal.
  - change (globTokens (seg :: seg' :: segments))
      with (literalTokens seg ++ anyTextTokens ++ globTokens (seg' :: segments)).
    change (globSegments (seg :: seg' :: segments))
      with (literal seg ++ anyText :: globSegments (seg' :: segments)).
    rewrite <-!(assoc_L (++)), terms_literal by done.
    rewrite terms_anyText, IH.
    destruct (RegExp.terms ts); simpl; [|done].
    by rewrite <-(assoc_L (++)).
Qed.

(** With a prefix that reads as itself, the pattern of every spec compiles,
    and to the terms of the glob. *)
Lemma compile_regexSource (this : KeyValueFileSystem) (spec : string) :
  plainText (prefix this) = true →
  RegExp.compile (regexSource this spec)
  = Some (globTerms (prefix this) (segmentsOfSpec spec) (lastIsStar spec)).
Proof.
  intros Hplain. unfold RegExp.compile, regexSource, globTerms.
  change ("^" +:+ ?x) with (String "^" x). cbn [RegExp.tokens].
  rewrite tokens_plain, tokens_join by done.
  assert (RegExp.tokens ((if lastIsStar spec then ".*" else "") +:+ "$")
          = Some ((if lastIsStar spec then anyTextTokens else [])
                  ++ [RegExp.TEnd])) as ->.
  { by destruct (lastIsStar spec). }
  cbn [fmap option_fmap option_map mbind option_bind RegExp.terms].
  rewrite terms_literal.
  2:{ apply noLeadingStar_glob. by destruct (lastIsStar spec). }
  rewrite terms_glob by by destruct (lastIsStar spec).
  by destruct (lastIsStar spec).
Qed.

(** ** Matching *)

Lemma matches_at_literal (p : string) (r : RegExp.t) (b : bool) (x : string) :
  RegExp.matches_at (literal p ++ r) b (p +:+ x)
  = RegExp.matches_at r (b && (String.length p =? 0)) x.
Proof.
  revert b. induction p as [|c p IH]; intros b.
  - rewrite append_nil_l. cbn [literal app String.length Nat.eqb].
    by rewrite andb_true_r.
  - rewrite append_cons. cbn [literal app RegExp.matches_at RegExp.accepts].
    rewrite bool_decide_eq_true_2, IH by done.
    cbn [String.length Nat.eqb andb]. by rewrite andb_false_r.
Qed.

Lemma matches_at_literal_inv (p : string) (r : RegExp.t) (b : bool) (s : string) :
  RegExp.matches_at (literal p ++ r) b s = true →
  ∃ x, s = p +:+ x.
Proof.
  revert b s. induction p as [|c p IH]; intros b s Hs.
  - by exists s.
  - destruct s as [|d s]; cbn [literal app RegExp.matches_at] in Hs; [done|].
    apply andb_prop in Hs as [Hd Hs]. cbn [RegExp.accepts] in Hd.
    apply bool_decide_eq_true_1 in Hd as ->.
    destruct (IH _ _ Hs) as [x ->]. by exists x.
Qed.

Lemma search_AssertStart (r : RegExp.t) (s : string) :
  RegExp.search (RegExp.AssertStart :: r) false s = false.
Proof. induction s as [|c s IH]; [done|]. cbn. by rewrite IH. Qed.

(** A pattern that opens with [^] matches from index 0 or not at all. *)
Lemma test_anchored (r : RegExp.t) (key : string) :
  RegExp.test (RegExp.AssertStart :: r) key = RegExp.matches_at r true key.
Proof.
  unfold RegExp.test. destruct key as [|c key]; cbn.
  - by rewrite orb_false_r.
  - rewrite search_AssertStart. by rewrite orb_false_r.
Qed.

Lemma test_globTerms (pre : string) (segments : list string) (open : bool)
    (rest : string) :
  RegExp.test (globTerms pre segments open) (pre +:+ rest)
  = RegExp.matches_at
      (globSegments segments ++ (if open then [anyText] else [])
         ++ [RegExp.AssertEnd])
      (String.length pre =? 0) rest.
Proof. unfold globTerms. by rewrite test_anchored, matches_at_literal. Qed.

(** Whatever the glob, a key it accepts starts with the literal prefix. *)
Lemma test_globTerms_inv (pre : string) (segments : list string)
    (open : bool) (key : string) :
  RegExp.test (globTerms pre segments open) key = true →
  ∃ rest, key = pre +:+ rest.
Proof.
  unfold globTerms. rewrite test_anchored. apply matches_at_literal_inv.
Qed.

Lemma matches_at_end (b : bool) (s : string) :
  RegExp.matches_at [RegExp.AssertEnd] b s = true ↔ s = "".
Proof. by destruct s. Qed.

(** ** The in-memory store honours the contract *)

Lemma lookup_foldl_delete (m : gmap string string) (ks : list string)
    (k : string) :
  foldl (λ m' k', delete k' m') m ks !! k
  = if decide (k ∈ ks) then None else m !! k.
Proof.
  revert m. induction ks as [|k0 ks IH]; intros m; cbn [foldl].
  - case_decide; [set_solver|done].
  - rewrite IH, lookup_delete.
    destruct (decide (k ∈ ks)) as [Hin|Hin],
      (decide (k ∈ k0 :: ks)) as [Hin'|Hin'],
      (decide (k0 = k)) as [->|Hne]; try done.
    + apply not_elem_of_cons in Hin' as [_ Hin']. done.
    + apply not_elem_of_cons in Hin' as [_ Hin']. done.
    + apply elem_of_cons in Hin' as [->|Hin']; done.
    + apply not_elem_of_cons in Hin' as [Hin' _]. done.
Qed.

Global Instance MemoryStore_contract :
  KeyValueStoreContract (gmap string string).
Proof.
  split; simpl.
  - intros m. apply NoDup_elements.
  - intros m k. by rewrite elem_of_elements, elem_of_dom.
  - intros m k v k'. rewrite lookup_insert.
    destruct (decide (k = k')), (decide (k' = k)); congruence.
  - intros m k k'. rewrite lookup_delete.
    destruct (decide (k = k')), (decide (k' = k)); congruence.
  - done.
  - done.
  - intros m ks k. apply lookup_foldl_delete.
Qed.

(** ** Running the methods *)

Section running.
Context {S : Type} `{KeyValueStore S} {T : Type} `{Json T}.
Variable this : KeyValueFileSystem.

Lemma ls_run (spec : option string) (w : World S) :
  ls this spec w
  = match regexFromSpec this (specOrStar spec) with
    | Ok regex =>
        (Ok ((λ key, Js.slice key (String.length (prefix this)))
               <$> filter (λ key, RegExp.test regex key = true)
                     (getAllKeys (state w))),
         called CallGetAllKeys w)
    | Throw e => (Throw e, called CallGetAllKeys w)
    end.
Proof.
  unfold ls, store.getAllKeys, store.perform, pure, called.
  cbn. by destruct (regexFromSpec this (specOrStar spec)).
Qed.

Lemma ls_plain (spec : option string) (w : World S) :
  plainText (prefix this) = true →
  ls this spec w
  = (Ok ((λ key, Js.slice key (String.length (prefix this)))
           <$> filter
                 (λ key, RegExp.test
                           (globTerms (prefix this)
                              (segmentsOfSpec (specOrStar spec))
                              (lastIsStar (specOrStar spec))) key = true)
                 (getAllKeys (state w))),
     called CallGetAllKeys w).
Proof.
  intros Hplain. rewrite ls_run. unfold regexFromSpec.
  by rewrite compile_regexSource.
Qed.

End running.

Lemma validatePath_nonempty (path : string) :
  path ≠ "" → validatePath path = Ok tt.
Proof. by destruct path. Qed.

Lemma mapM_cons {A B} (f : A → Result B) (x : A) (l : list A) :
  mapM f (x :: l) = y ← f x; k ← mapM f l; mret (y :: k).
Proof. reflexivity. Qed.

(** Unfolds the sequencing of store calls down to the worlds. *)
Ltac run_action :=
  unfold pure, mbind, mret, Action_bind, Action_ret, store.getAllKeys,
    store.getItem, store.setItem, store.removeItem, store.multiGet,
    store.multiSet, store.multiRemove, store.perform;
  cbn [fst snd state calls].

(** ** Removal *)

Section removal.
Context {S : Type} `{KeyValueStoreContract S}.
Variable this : KeyValueFileSystem.

Lemma rmAllForce_run (w : World S) :
  rmAllForce this w
  = (Ok tt,
     mkWorld
       (multiRemove (state w)
          (filter (λ key, Js.startsWith key (prefix this) = true)
             (getAllKeys (state w))))
       ((calls w ++ [CallGetAllKeys])
          ++ [CallMultiRemove
                (filter (λ key, Js.startsWith key (prefix this) = true)
                   (getAllKeys (state w)))])).
Proof. reflexivity. Qed.

(** C1: [rmAllForce] removes only keys that start with the prefix of the
    instance.  Whatever the store holds, a key that does not start with the
    prefix reads the same after [rmAllForce] has completed as before it,
    and is still listed by the store if it was. *)
Theorem rmAllForce_keeps_other_keys (w : World S) (key : string) :
  Js.startsWith key (prefix this) = false →
  fst (rmAllForce this w) = Ok tt
  ∧ getItem (state (snd (rmAllForce this w))) key = getItem (state w) key
  ∧ (key ∈ getAllKeys (state w) →
     key ∈ getAllKeys (state (snd (rmAllForce this w)))).
Proof.
  intros Hkey. rewrite rmAllForce_run. cbn [fst snd state].
  assert (getItem
            (multiRemove (state w)
               (filter (λ key, Js.startsWith key (prefix this) = true)
                  (getAllKeys (state w)))) key
          = getItem (state w) key) as Hsame.
  { rewrite getItem_multiRemove. case_decide as Hin; [|done].
    apply list_elem_of_filter in Hin as [Hstarts _]. congruence. }
  split_and!; [done|done|].
  rewrite !elem_of_getAllKeys. by rewrite Hsame.
Qed.

(** C7: [rmMulti] given no path performs no store call and leaves the
    world as it is; given paths it completes, and afterwards the keys
    [prefix + path] of the given paths are absent and every other key reads
    as before; it does so in one batched call. *)
Theorem rmMulti_removes_exact_paths (w : World S) :
  rmMulti this [] w = (Ok tt, w)
  ∧ ∀ paths : list string,
      fst (rmMulti this paths w) = Ok tt
      ∧ (∀ key,
           getItem (state (snd (rmMulti this paths w))) key
           = if decide (key ∈ (λ path, prefix this +:+ path) <$> paths)
             then None else getItem (state w) key)
      ∧ (paths ≠ [] →
         calls (snd (rmMulti this paths w))
         = calls w
             ++ [CallMultiRemove ((λ path, prefix this +:+ path) <$> paths)]).
Proof.
  split; [done|]. intros [|p paths].
  - split_and!; [done| |done]. intros key. cbn.
    by rewrite decide_False by apply not_elem_of_nil.
  - split_and!; [done| |done]. intros key.
    apply getItem_multiRemove.
Qed.

End removal.

(** The contract holds of the in-memory store shared with another part of
    the application: its key [foo] survives [rmAllForce]. *)
Lemma rmAllForce_keeps_other_keys_witness :
  Js.startsWith "foo" (prefix kvfs) = false
  ∧ fst (rmAllForce kvfs (fresh sharedStore)) = Ok tt
  ∧ getItem (state (snd (rmAllForce kvfs (fresh sharedStore)))) "foo"
    = getItem (state (fresh sharedStore)) "foo"
  ∧ ("foo" ∈ getAllKeys (state (fresh sharedStore)) →
     "foo" ∈ getAllKeys (state (snd (rmAllForce kvfs (fresh sharedStore))))).
Proof.
  split; [reflexivity|].
  apply (rmAllForce_keeps_other_keys (S:=gmap string string) kvfs
           (fresh sharedStore) "foo").
  reflexivity.
Defined.

Lemma rmMulti_removes_exact_paths_witness :
  rmMulti kvfs [] (fresh sharedStore) = (Ok tt, fresh sharedStore)
  ∧ ∀ paths : list string,
      fst (rmMulti kvfs paths (fresh sharedStore)) = Ok tt
      ∧ (∀ key,
           getItem (state (snd (rmMulti kvfs paths (fresh sharedStore)))) key
           = if decide (key ∈ (λ path, prefix kvfs +:+ path) <$> paths)
             then None else getItem (state (fresh sharedStore)) key)
      ∧ (paths ≠ [] →
         calls (snd (rmMulti kvfs paths (fresh sharedStore)))
         = calls (fresh sharedStore)
             ++ [CallMultiRemove ((λ path, prefix kvfs +:+ path) <$> paths)]).
Proof.
  apply (rmMulti_removes_exact_paths (S:=gmap string string) kvfs
           (fresh sharedStore)).
Defined.

(** ** Writing *)

Section writing.
Context {S : Type} `{KeyValueStore S} {T : Type} `{Json T}.
Variable this : KeyValueFileSystem.

Lemma encodeEntry_nonempty (basePath : option string) (entry : PathValue T) :
  fullPathOf basePath (path entry) ≠ "" →
  encodeEntry this basePath entry
  = Ok (prefix this +:+ fullPathOf basePath (path entry),
        JSON_stringify (value entry)).
Proof.
  intros Hne. unfold encodeEntry.
  by rewrite (validatePath_nonempty _ Hne).
Qed.

Lemma encodeEntry_empty (basePath : option string) (entry : PathValue T) :
  fullPathOf basePath (path entry) = "" →
  encodeEntry this basePath entry = Throw emptyPathError.
Proof. intros Hempty. unfold encodeEntry. by rewrite Hempty. Qed.

(** The callback throws nothing but the error of [validatePath], so the
    map over the entries throws it as soon as one combined path is empty. *)
Lemma mapM_encodeEntry_empty (basePath : option string)
    (values : list (PathValue T)) :
  Exists (λ entry, fullPathOf basePath (path entry) = "") values →
  mapM (encodeEntry this basePath) values = Throw emptyPathError.
Proof.
  induction values as [|entry values IH]; intros Hex.
  - by apply Exists_nil in Hex.
  - rewrite mapM_cons.
    destruct (decide (fullPathOf basePath (path entry) = "")) as [He|He].
    + by rewrite (encodeEntry_empty _ _ He).
    + rewrite (encodeEntry_nonempty _ _ He).
      apply Exists_cons in Hex as [?|Hex]; [done|].
      cbn [mbind Result_bind]. by rewrite (IH Hex).
Qed.

(** C8: [writeMulti] given no entry performs no store call and leaves the
    store as it is, whatever the base path (a string or [undefined]). *)
Theorem writeMulti_nothing (basePath : option string) (w : World S) :
  writeMulti this basePath ([] : list (PathValue T)) w = (Ok tt, w).
Proof. reflexivity. Qed.

(** C4: [read], [write] and [rm] of the empty path, and [writeMulti] with
    an entry whose combined path is empty, throw the error of
    [validatePath], and the world they leave is the world they found: the
    store has received no call and holds what it held. *)
Theorem empty_path_rejected (w : World S) :
  read (T:=T) this "" w = (Throw emptyPathError, w)
  ∧ (∀ v : T, write this "" v w = (Throw emptyPathError, w))
  ∧ rm this "" w = (Throw emptyPathError, w)
  ∧ (∀ (basePath : option string) (values : list (PathValue T)),
       Exists (λ entry, fullPathOf basePath (path entry) = "") values →
       writeMulti this basePath values w = (Throw emptyPathError, w)).
Proof.
  split_and!; [done..|].
  intros basePath values Hex. unfold writeMulti.
  destruct values as [|entry values]; [by apply Exists_nil in Hex|].
  cbn [length Nat.eqb]. unfold pure, mbind, Action_bind.
  by rewrite (mapM_encodeEntry_empty _ _ Hex).
Qed.

End writing.

(** The one entry whose path and base path are both empty. *)
Lemma empty_path_rejected_witness :
  Exists (λ entry : PathValue bool, fullPathOf (Some "") (path entry) = "")
    [mkPathValue "" true]
  ∧ writeMulti kvfs (Some "") [mkPathValue "" true] (fresh sharedStore)
    = (Throw emptyPathError, fresh sharedStore).
Proof.
  split.
  - apply Exists_cons_hd. reflexivity.
  - apply (empty_path_rejected (S:=gmap string string) (T:=bool) kvfs
             (fresh sharedStore)).
    apply Exists_cons_hd. reflexivity.
Defined.

(** ** Reading back *)

Section round_trip.
Context {S : Type} `{KeyValueStoreContract S} {T : Type} `{Json T}.
Variable this : KeyValueFileSystem.

Lemma write_run (path : string) (v : T) (w : World S) :
  path ≠ "" →
  write this path v w
  = (Ok tt,
     mkWorld (setItem (state w) (prefix this +:+ path) (JSON_stringify v))
       (calls w ++ [CallSetItem (prefix this +:+ path) (JSON_stringify v)])).
Proof.
  intros Hne. unfold write. rewrite (validatePath_nonempty _ Hne).
  by run_action.
Qed.

Lemma read_run (path : string) (w : World S) :
  path ≠ "" →
  fst (read (T:=T) this path w)
  = match getItem (state w) (prefix this +:+ path) with
    | Some text =>
        match JSON_parse text with
        | Some v => Ok (Some v)
        | None => Throw (SyntaxError text)
        end
    | None => Ok None
    end.
Proof.
  intros Hne. unfold read. rewrite (validatePath_nonempty _ Hne).
  run_action.
  destruct (getItem (state w) (prefix this +:+ path)) as [text|]; [|done].
  by destruct (JSON_parse text).
Qed.

(** C5: round trip.  For a path that is not empty and a value the codec
    reads back from its own text, [write] completes, and [read] of the same
    path on the same instance right after it returns that value, not
    [null]. *)
Theorem write_then_read (path : string) (v : T) (w : World S) :
  path ≠ "" →
  JSON_parse (JSON_stringify v) = Some v →
  fst (write this path v w) = Ok tt
  ∧ fst (read this path (snd (write this path v w))) = Ok (Some v).
Proof.
  intros Hne Hcodec. rewrite (write_run _ _ _ Hne). split; [done|].
  rewrite (read_run _ _ Hne). cbn [snd state].
  rewrite getItem_setItem, decide_True by done. by rewrite Hcodec.
Qed.

End round_trip.

Lemma write_then_read_witness :
  "/home" ≠ ""
  ∧ JSON_parse (JSON_stringify true) = Some true
  ∧ fst (write kvfs "/home" true (fresh sharedStore)) = Ok tt
  ∧ fst (read kvfs "/home" (snd (write kvfs "/home" true (fresh sharedStore))))
    = Ok (Some true).
Proof.
  split; [discriminate|]. split; [reflexivity|].
  apply (write_then_read (S:=gmap string string) (T:=bool) kvfs "/home" true
           (fresh sharedStore)); [discriminate|reflexivity].
Defined.

(** ** Listing *)

Section listing.
Context {S : Type} `{KeyValueStore S}.
Variable this : KeyValueFileSystem.

(** Decides one key of the form [prefix + path] against a glob whose
    segments are known. *)
Ltac decide_key :=
  rewrite test_globTerms;
  destruct (String.length (prefix this) =? 0); vm_compute; congruence.

(** C6: when the store holds exactly the five keys [prefix + "/baseball"],
    [prefix + "/basketball"], [prefix + "/ball"], [prefix + "/baller"] and
    [prefix + "/basketweaving"], [ls("/*ball")] returns [/baseball],
    [/basketball] and [/ball] and nothing else, and [ls("/*ball*")] returns
    those three and [/baller]; the prefix is one that reads as itself in a
    pattern. *)
Theorem ls_ball_example (w : World S) :
  plainText (prefix this) = true →
  getAllKeys (state w)
    ≡ₚ [prefix this +:+ "/baseball"; prefix this +:+ "/basketball";
        prefix this +:+ "/ball"; prefix this +:+ "/baller";
        prefix this +:+ "/basketweaving"] →
  (∃ paths, fst (ls this (Some "/*ball") w) = Ok paths
            ∧ paths ≡ₚ ["/baseball"; "/basketball"; "/ball"])
  ∧ (∃ paths, fst (ls this (Some "/*ball*") w) = Ok paths
              ∧ paths ≡ₚ ["/baseball"; "/basketball"; "/ball"; "/baller"]).
Proof.
  intros Hplain Hkeys. split.
  - rewrite (ls_plain _ _ _ Hplain). eexists. split; [reflexivity|].
    rewrite Hkeys.
    change (segmentsOfSpec (specOrStar (Some "/*ball"))) with ["/"; "ball"].
    change (lastIsStar (specOrStar (Some "/*ball"))) with false.
    rewrite !filter_cons, filter_nil.
    rewrite !decide_True by decide_key.
    rewrite !decide_False by decide_key.
    cbn [fmap list_fmap]. by rewrite !slice_append.
  - rewrite (ls_plain _ _ _ Hplain). eexists. split; [reflexivity|].
    rewrite Hkeys.
    change (segmentsOfSpec (specOrStar (Some "/*ball*"))) with ["/"; "ball"].
    change (lastIsStar (specOrStar (Some "/*ball*"))) with true.
    rewrite !filter_cons, filter_nil.
    rewrite !decide_True by decide_key.
    rewrite !decide_False by decide_key.
    cbn [fmap list_fmap]. by rewrite !slice_append.
Qed.

End listing.

Lemma ls_ball_example_witness :
  plainText (prefix kvfs) = true
  ∧ getAllKeys (state (fresh ballStore))
      ≡ₚ [prefix kvfs +:+ "/baseball"; prefix kvfs +:+ "/basketball";
          prefix kvfs +:+ "/ball"; prefix kvfs +:+ "/baller";
          prefix kvfs +:+ "/basketweaving"]
  ∧ (∃ paths, fst (ls kvfs (Some "/*ball") (fresh ballStore)) = Ok paths
              ∧ paths ≡ₚ ["/baseball"; "/basketball"; "/ball"])
  ∧ (∃ paths, fst (ls kvfs (Some "/*ball*") (fresh ballStore)) = Ok paths
              ∧ paths ≡ₚ ["/baseball"; "/basketball"; "/ball"; "/baller"]).
Proof.
  assert (getAllKeys (state (fresh ballStore))
            ≡ₚ [prefix kvfs +:+ "/baseball"; prefix kvfs +:+ "/basketball";
                prefix kvfs +:+ "/ball"; prefix kvfs +:+ "/baller";
                prefix kvfs +:+ "/basketweaving"]) as Hkeys.
  { vm_compute. solve_Permutation. }
  split; [reflexivity|]. split; [exact Hkeys|].
  apply (ls_ball_example (S:=gmap string string) kvfs (fresh ballStore));
    [reflexivity|exact Hkeys].
Defined.

(** ** A spec that ends in a lone backslash *)

Lemma scanSpec_char (c : ascii) (rest : string) (segments : list string)
    (curSegment : string) :
  c ≠ "\"%char → c ≠ "*"%char →
  scanSpec (String c rest) segments curSegment
  = scanSpec rest segments (curSegment +:+ String c "")
  ∧ danglingEscape (String c rest) = danglingEscape rest.
Proof.
  destruct c as [[] [] [] [] [] [] [] []]; intros H1 H2;
    solve [done | split; reflexivity].
Qed.

Lemma scanSpec_trailing_escape (body : string) (segments : list string)
    (curSegment : string) :
  danglingEscape body = false →
  scanSpec (body +:+ "\") segments curSegment
  = ((scanSpec body segments curSegment).1,
     (scanSpec body segments curSegment).2 +:+ "undefined").
Proof.
  remember (String.length body) as n eqn:Hn.
  revert body segments curSegment Hn.
  induction (lt_wf n) as [n _ IH]; intros body segments curSegment -> Hbody.
  destruct body as [|c body]; [done|].
  rewrite append_cons.
  destruct (decide (c = "\"%char)) as [->|Hesc].
  - destruct body as [|d body]; [done|].
    rewrite append_cons. cbn [scanSpec].
    apply (IH (String.length body)); [simpl; lia|done|done].
  - destruct (decide (c = "*"%char)) as [->|Hstar].
    + cbn [scanSpec].
      destruct (negb (String.length curSegment =? 0));
        apply (IH (String.length body)); simpl; done || lia.
    + destruct (scanSpec_char c body segments curSegment Hesc Hstar)
        as [Hscan Hdangling].
      rewrite Hscan, Hdangling in *.
      rewrite (proj1 (scanSpec_char c _ segments curSegment Hesc Hstar)).
      apply (IH (String.length body)); [simpl; lia|done|done].
Qed.

Lemma segmentsOfSpec_trailing_escape (body : string) :
  danglingEscape body = false →
  segmentsOfSpec (body +:+ "\")
  = (scanSpec body [] "").1 ++ [(scanSpec body [] "").2 +:+ "undefined"].
Proof.
  intros Hbody. unfold segmentsOfSpec.
  rewrite (scanSpec_trailing_escape _ _ _ Hbody).
  rewrite append_length. by rewrite Nat.add_comm.
Qed.

Lemma filter_only (P : string → Prop) `{!∀ x, Decision (P x)}
    (k : string) (l : list string) :
  NoDup l → (∀ x, P x ↔ x = k) →
  filter P l = if decide (k ∈ l) then [k] else [].
Proof.
  intros Hnodup HP. induction Hnodup as [|x l Hx Hnodup IH].
  - by rewrite decide_False by apply not_elem_of_nil.
  - rewrite filter_cons, IH. destruct (decide (P x)) as [Hpx|Hpx].
    + apply HP in Hpx as ->.
      rewrite (decide_False (P:=k ∈ l)) by done.
      by rewrite decide_True by left.
    + assert (x ≠ k) as Hne by (by intros ?%HP).
      destruct (decide (k ∈ l)) as [Hin|Hin].
      * by rewrite decide_True by by right.
      * rewrite decide_False; [done|].
        by intros [?|?]%elem_of_cons.
Qed.

Lemma test_undefined (pre key : string) :
  RegExp.test (globTerms pre ["undefined"] false) key = true
  ↔ key = pre +:+ "undefined".
Proof.
  split.
  - intros Htest. destruct (test_globTerms_inv _ _ _ _ Htest) as [rest ->].
    rewrite test_globTerms in Htest. cbn [globSegments app] in Htest.
    destruct (matches_at_literal_inv _ _ _ _ Htest) as [x ->].
    rewrite matches_at_literal in Htest.
    apply matches_at_end in Htest as ->. by rewrite append_nil_r.
  - intros ->. rewrite test_globTerms.
    by destruct (String.length pre =? 0).
Qed.

Section trailing_escape.
Context {S : Type} `{KeyValueStoreContract S}.
Variable this : KeyValueFileSystem.

(** C9: a spec whose last character is a backslash that nothing escapes
    has the text [undefined] appended to its current segment, which is then
    pushed as the last segment.  For the spec that is
    one backslash, the segments are the one segment [undefined], the
    matcher accepts the key [prefix + "undefined"] and no other, and
    [ls] returns the one path [undefined] exactly when the store holds that
    key; the prefix is one that reads as itself in a pattern. *)
Theorem trailing_escape_undefined (w : World S) :
  plainText (prefix this) = true →
  (∀ body, danglingEscape body = false →
           segmentsOfSpec (body +:+ "\")
           = (scanSpec body [] "").1
               ++ [(scanSpec body [] "").2 +:+ "undefined"])
  ∧ segmentsOfSpec "\" = ["undefined"]
  ∧ (∃ regex, regexFromSpec this "\" = Ok regex
              ∧ ∀ key, RegExp.test regex key = true
                       ↔ key = prefix this +:+ "undefined")
  ∧ (fst (ls this (Some "\") w) = Ok ["undefined"]
     ↔ prefix this +:+ "undefined" ∈ getAllKeys (state w)).
Proof.
  intros Hplain. split; [apply segmentsOfSpec_trailing_escape|].
  split; [reflexivity|]. split.
  - exists (globTerms (prefix this) ["undefined"] false). split.
    + unfold regexFromSpec. by rewrite compile_regexSource.
    + apply test_undefined.
  - rewrite (ls_plain _ _ _ Hplain). cbn [fst].
    change (segmentsOfSpec (specOrStar (Some "\"))) with ["undefined"].
    change (lastIsStar (specOrStar (Some "\"))) with false.
    rewrite (filter_only _ (prefix this +:+ "undefined"))
      by (apply getAllKeys_NoDup || apply test_undefined).
    destruct (decide (prefix this +:+ "undefined" ∈ getAllKeys (state w)))
      as [Hin|Hin]; cbn [fmap list_fmap].
    + by rewrite slice_append.
    + split; [discriminate|done].
Qed.

End trailing_escape.

Lemma trailing_escape_undefined_witness :
  plainText (prefix kvfs) = true
  ∧ (∀ body, danglingEscape body = false →
             segmentsOfSpec (body +:+ "\")
             = (scanSpec body [] "").1
                 ++ [(scanSpec body [] "").2 +:+ "undefined"])
  ∧ segmentsOfSpec "\" = ["undefined"]
  ∧ (∃ regex, regexFromSpec kvfs "\" = Ok regex
              ∧ ∀ key, RegExp.test regex key = true
                       ↔ key = prefix kvfs +:+ "undefined")
  ∧ (fst (ls kvfs (Some "\") (fresh oddStore)) = Ok ["undefined"]
     ↔ prefix kvfs +:+ "undefined" ∈ getAllKeys (state (fresh oddStore))).
Proof.
  split; [reflexivity|].
  apply (trailing_escape_undefined (S:=gmap string string) kvfs
           (fresh oddStore)).
  reflexivity.
Defined.

(** ** Reading many *)

Lemma mapM_Ok_Forall2 {A B} (f : A → Result B) (l : list A) (k : list B) :
  mapM f l = Ok k → Forall2 (λ x y, f x = Ok y) l k.
Proof.
  revert k. induction l as [|x l IH]; intros k Hk.
  - injection Hk as <-. constructor.
  - rewrite mapM_cons in Hk. destruct (f x) as [y|e] eqn:Hx; [|done].
    cbn [mbind Result_bind] in Hk.
    destruct (mapM f l) as [k'|e]; [|done].
    injection Hk as <-. constructor; auto.
Qed.

Lemma mapM_Ok_total {A B} (f : A → Result B) (l : list A) :
  Forall (λ x, ∃ y, f x = Ok y) l → ∃ k, mapM f l = Ok k.
Proof.
  induction 1 as [|x l [y Hx] _ [k Hk]].
  - by exists [].
  - exists (y :: k). by rewrite mapM_cons, Hx, Hk.
Qed.

Section reading_many.
Context {S : Type} `{KeyValueStoreContract S} {T : Type} `{Json T}.
Variable this : KeyValueFileSystem.

Lemma readMulti_run (spec : string) (w : World S) :
  fst (readMulti (T:=T) this spec w)
  = paths ← fst (ls this (Some spec) w);
    mapM (decodeEntry this) (fetched this w paths).
Proof.
  unfold readMulti. run_action. rewrite !ls_run.
  destruct (regexFromSpec this (specOrStar (Some spec))) as [regex|e];
    cbn [fst snd state called Result_bind]; [|done].
  rewrite multiGet_getItem. unfold fetched. by rewrite <-list_fmap_compose.
Qed.

Lemma decodeEntry_null (key : string) (str : option string) :
  str = Some "" ∨ str = None →
  decodeEntry (T:=T) this (key, str)
  = Ok (mkPathValue (Js.slice key (String.length (prefix this))) None).
Proof. by intros [->| ->]. Qed.

Lemma decodeEntry_path (key : string) (str : option string)
    (entry : PathValue (option T)) :
  decodeEntry this (key, str) = Ok entry →
  path entry = Js.slice key (String.length (prefix this)).
Proof.
  destruct str as [[|c s]|]; cbn.
  - by intros [= <-].
  - destruct (JSON_parse (String c s)); cbn; [|done]. by intros [= <-].
  - by intros [= <-].
Qed.

Lemma decodeEntry_total (key : string) (str : option string) :
  decodes (T:=T) str → ∃ entry, decodeEntry (T:=T) this (key, str) = Ok entry.
Proof.
  destruct str as [[|c s]|]; cbn; eauto.
  intros [v ->]. eauto.
Qed.

(** C10: in the result of [readMulti] the value is [null] for a matched
    key that is absent from the store, and just as well for a matched key
    whose stored text is the empty string: the two give the same entry.
    Whatever the spec, when [ls] returns [paths], every result of
    [readMulti] pairs the paths in order with entries whose value is
    [null] wherever the text at [prefix + path] is empty or absent; and
    [readMulti] does return when every text it fetches decodes. *)
Theorem readMulti_empty_text_is_null (spec : string) (w : World S)
    (paths : list string) :
  fst (ls this (Some spec) w) = Ok paths →
  (∀ key, decodeEntry (T:=T) this (key, Some "")
          = decodeEntry this (key, None))
  ∧ (∀ entries : list (PathValue (option T)),
       fst (readMulti this spec w) = Ok entries →
       Forall2
         (λ p entry,
            path entry = p
            ∧ (getItem (state w) (prefix this +:+ p) = Some ""
               ∨ getItem (state w) (prefix this +:+ p) = None →
               value entry = None))
         paths entries)
  ∧ (Forall (λ p, decodes (T:=T) (getItem (state w) (prefix this +:+ p))) paths →
     ∃ entries : list (PathValue (option T)),
       fst (readMulti this spec w) = Ok entries).
Proof.
  intros Hls. split; [done|]. rewrite readMulti_run, Hls.
  cbn [mbind Result_bind]. split.
  - intros entries Hentries%mapM_Ok_Forall2. unfold fetched in Hentries.
    apply Forall2_fmap_l in Hentries.
    eapply Forall2_impl; [exact Hentries|].
    intros p entry Hentry. unfold compose in Hentry. split.
    + apply decodeEntry_path in Hentry. by rewrite slice_append in Hentry.
    + intros Hnull. rewrite (decodeEntry_null _ _ Hnull) in Hentry.
      by injection Hentry as <-.
  - intros Hdecodes. apply mapM_Ok_total. unfold fetched.
    apply Forall_fmap. eapply Forall_impl; [exact Hdecodes|].
    intros p Hp. by apply decodeEntry_total.
Qed.

End reading_many.

Lemma readMulti_empty_text_is_null_witness :
  fst (ls kvfs (Some "*") (fresh sharedStore))
  = Ok ["/draft"; "/home"; "/page"]
  ∧ fst (readMulti kvfs "*" (fresh sharedStore))
    = Ok [mkPathValue "/draft" None; mkPathValue "/home" (Some true);
          mkPathValue "/page" (Some false)]
  ∧ Forall2
      (λ p entry,
         path entry = p
         ∧ (getItem (state (fresh sharedStore)) (prefix kvfs +:+ p) = Some ""
            ∨ getItem (state (fresh sharedStore)) (prefix kvfs +:+ p) = None →
            value entry = None))
      ["/draft"; "/home"; "/page"]
      [mkPathValue "/draft" None; mkPathValue "/home" (Some true);
       mkPathValue "/page" (Some false)].
Proof.
  assert (fst (ls kvfs (Some "*") (fresh sharedStore))
          = Ok ["/draft"; "/home"; "/page"]) as Hls
    by (vm_compute; reflexivity).
  split; [exact Hls|]. split; [vm_compute; reflexivity|].
  apply (proj1 (proj2 (readMulti_empty_text_is_null (S:=gmap string string)
                         (T:=bool) kvfs "*" (fresh sharedStore) _ Hls))).
  vm_compute; reflexivity.
Defined.

(** ** What holds of the namespace *)

Section namespace.
Context {S : Type} `{KeyValueStoreContract S} {T : Type} `{Json T}.
Variable this : KeyValueFileSystem.

Lemma encodeEntry_Ok (basePath : option string) (entry : PathValue T)
    (kv : string * string) :
  encodeEntry this basePath entry = Ok kv →
  kv = (prefix this +:+ fullPathOf basePath (path entry),
        JSON_stringify (value entry)).
Proof.
  unfold encodeEntry.
  destruct (validatePath (fullPathOf basePath (path entry))); [|done].
  by intros [= <-].
Qed.

Lemma mapM_encodeEntry_Ok (basePath : option string)
    (values : list (PathValue T)) (kvs : list (string * string)) :
  mapM (encodeEntry this basePath) values = Ok kvs →
  kvs = (λ entry, (prefix this +:+ fullPathOf basePath (path entry),
                   JSON_stringify (value entry))) <$> values.
Proof.
  intros Hkvs%mapM_Ok_Forall2.
  induction Hkvs as [|entry kv values kvs Hkv _ IH]; [done|].
  cbn [fmap list_fmap]. by rewrite (encodeEntry_Ok _ _ _ Hkv), IH.
Qed.

(** X1: the keys [write] and [writeMulti] create.  [write] of a path that is
    not empty makes the one store call [setItem(prefix + path, text)];
    [writeMulti], when it completes on entries, has made the one store call
    [multiSet] with the key [prefix + basePath + path] for each entry, in
    order.  Each such key starts with the prefix. *)
Theorem written_keys_are_prefixed (w : World S) :
  (∀ (path : string) (v : T),
      path ≠ "" →
      write this path v w
      = (Ok tt,
         mkWorld
           (setItem (state w) (prefix this +:+ path) (JSON_stringify v))
           (calls w
              ++ [CallSetItem (prefix this +:+ path) (JSON_stringify v)]))
      ∧ Js.startsWith (prefix this +:+ path) (prefix this) = true)
  ∧ (∀ (basePath : option string) (values : list (PathValue T))
       (w' : World S),
       values ≠ [] →
       writeMulti this basePath values w = (Ok tt, w') →
       let keyValues :=
         (λ entry, (prefix this +:+ fullPathOf basePath (path entry),
                    JSON_stringify (value entry))) <$> values in
       w' = mkWorld (multiSet (state w) keyValues)
              (calls w ++ [CallMultiSet keyValues])
       ∧ Forall (λ kv, Js.startsWith kv.1 (prefix this) = true) keyValues).
Proof.
  split.
  - intros path v Hne. split; [by apply write_run|apply startsWith_append].
  - intros basePath values w' Hne Hrun keyValues. split.
    + unfold writeMulti in Hrun. destruct values as [|entry values]; [done|].
      cbn [length Nat.eqb] in Hrun. revert Hrun. run_action.
      destruct (mapM (encodeEntry this basePath) (entry :: values))
        as [kvs|e] eqn:Hkvs; [|done].
      apply mapM_encodeEntry_Ok in Hkvs as ->. by intros [= <-].
    + apply Forall_fmap, Forall_forall. intros entry _.
      apply startsWith_append.
Qed.

(** X2: with a prefix that reads as itself in a pattern, the matcher of
    every spec accepts only keys that start with the prefix, [ls] returns, and
    each path it returns is the rest of a key of the store after the
    prefix; so is the path of each entry [readMulti] returns. *)
Theorem plain_prefix_isolates (spec : option string) (w : World S) :
  plainText (prefix this) = true →
  (∃ regex, regexFromSpec this (specOrStar spec) = Ok regex
            ∧ ∀ key, RegExp.test regex key = true →
                     Js.startsWith key (prefix this) = true)
  ∧ (∃ paths, fst (ls this spec w) = Ok paths
              ∧ ∀ p, p ∈ paths → prefix this +:+ p ∈ getAllKeys (state w))
  ∧ (∀ (s : string) (entries : list (PathValue (option T))),
       fst (readMulti this s w) = Ok entries →
       ∀ entry, entry ∈ entries →
                prefix this +:+ path entry ∈ getAllKeys (state w)).
Proof.
  intros Hplain.
  assert (∀ spec' p,
            p ∈ (λ key, Js.slice key (String.length (prefix this)))
                  <$> filter
                        (λ key, RegExp.test
                                  (globTerms (prefix this)
                                     (segmentsOfSpec (specOrStar spec'))
                                     (lastIsStar (specOrStar spec'))) key
                                = true)
                        (getAllKeys (state w)) →
            prefix this +:+ p ∈ getAllKeys (state w)) as Hpaths.
  { intros spec' p (key & -> & [Htest Hkey]%list_elem_of_filter)%list_elem_of_fmap.
    apply test_globTerms_inv in Htest as [rest ->].
    by rewrite slice_append. }
  split_and!.
  - eexists. split.
    + unfold regexFromSpec. by rewrite compile_regexSource.
    + intros key [rest ->]%test_globTerms_inv. apply startsWith_append.
  - rewrite (ls_plain _ _ _ Hplain). eexists. split; [done|]. apply Hpaths.
  - intros s entries. rewrite readMulti_run, (ls_plain _ _ _ Hplain).
    cbn [fst mbind Result_bind].
    intros Hentries%mapM_Ok_Forall2 entry Hentry.
    unfold fetched in Hentries. apply Forall2_fmap_l in Hentries.
    apply list_elem_of_lookup_1 in Hentry as [i Hi].
    destruct (Forall2_lookup_r _ _ _ _ _ Hentries Hi) as (p & Hp & Hdec).
    unfold compose in Hdec. apply decodeEntry_path in Hdec.
    rewrite slice_append in Hdec. rewrite Hdec.
    apply (Hpaths (Some s)). by eapply list_elem_of_lookup_2.
Qed.

End namespace.

Lemma written_keys_are_prefixed_witness :
  [mkPathValue "/home" true; mkPathValue "/page" false] ≠ []
  ∧ writeMulti kvfs (Some "/base")
      [mkPathValue "/home" true; mkPathValue "/page" false] (fresh ballStore)
    = (Ok tt,
       mkWorld
         (multiSet ballStore
            [("/kvfs/base/home", "true"); ("/kvfs/base/page", "false")])
         [CallMultiSet
            [("/kvfs/base/home", "true"); ("/kvfs/base/page", "false")]])
  ∧ Forall (λ kv : string * string, Js.startsWith kv.1 (prefix kvfs) = true)
      [("/kvfs/base/home", "true"); ("/kvfs/base/page", "false")].
Proof.
  split; [discriminate|]. split; [reflexivity|].
  refine (proj2 (proj2 (written_keys_are_prefixed (S:=gmap string string)
                          (T:=bool) kvfs (fresh ballStore))
                   (Some "/base")
                   [mkPathValue "/home" true; mkPathValue "/page" false]
                   (mkWorld
                      (multiSet ballStore
                         [("/kvfs/base/home", "true");
                          ("/kvfs/base/page", "false")])
                      [CallMultiSet
                         [("/kvfs/base/home", "true");
                          ("/kvfs/base/page", "false")]]) _ _));
    [discriminate|reflexivity].
Defined.

Lemma plain_prefix_isolates_witness :
  plainText (prefix kvfs) = true
  ∧ (∃ regex, regexFromSpec kvfs (specOrStar None) = Ok regex
              ∧ ∀ key, RegExp.test regex key = true →
                       Js.startsWith key (prefix kvfs) = true)
  ∧ (∃ paths, fst (ls kvfs None (fresh sharedStore)) = Ok paths
              ∧ ∀ p, p ∈ paths →
                     prefix kvfs +:+ p ∈ getAllKeys (state (fresh sharedStore)))
  ∧ (∀ (s : string) (entries : list (PathValue (option bool))),
       fst (readMulti kvfs s (fresh sharedStore)) = Ok entries →
       ∀ entry, entry ∈ entries →
                prefix kvfs +:+ path entry
                ∈ getAllKeys (state (fresh sharedStore))).
Proof.
  split; [reflexivity|].
  apply (plain_prefix_isolates (S:=gmap string string) (T:=bool) kvfs None
           (fresh sharedStore)).
  reflexivity.
Defined.

(** ** More listings *)

Section more_listing.
Context {S : Type} `{KeyValueStore S}.
Variable this : KeyValueFileSystem.

Ltac decide_key :=
  rewrite test_globTerms;
  destruct (String.length (prefix this) =? 0); vm_compute; congruence.

(** X3: escaping.  When the store holds exactly the three keys
    [prefix + "/base**ll"], [prefix + "/ba*ketball"] and
    [prefix + "/basketweaving"], the spec [/*ba*\**ll], whose escaped star
    stands for a star of the key, lists the first two and not the third;
    the prefix is one that reads as itself in a pattern. *)
Theorem ls_escaped_star_example (w : World S) :
  plainText (prefix this) = true →
  getAllKeys (state w)
    ≡ₚ [prefix this +:+ "/base**ll"; prefix this +:+ "/ba*ketball";
        prefix this +:+ "/basketweaving"] →
  ∃ paths, fst (ls this (Some "/*ba*\**ll") w) = Ok paths
           ∧ paths ≡ₚ ["/base**ll"; "/ba*ketball"].
Proof.
  intros Hplain Hkeys.
  rewrite (ls_plain _ _ _ Hplain). eexists. split; [reflexivity|].
  rewrite Hkeys.
  change (segmentsOfSpec (specOrStar (Some "/*ba*\**ll")))
    with ["/"; "ba"; "*"; "ll"].
  change (lastIsStar (specOrStar (Some "/*ba*\**ll"))) with false.
  rewrite !filter_cons, filter_nil.
  rewrite !decide_True by decide_key.
  rewrite !decide_False by decide_key.
  cbn [fmap list_fmap]. by rewrite !slice_append.
Qed.

Lemma matches_at_star (cs : RegExp.charset) (r : RegExp.t) (b : bool)
    (s : string) :
  RegExp.matches_at (RegExp.Atom cs true :: r) b s
  = RegExp.matches_at r b s
    || match s with
       | EmptyString => false
       | String c s' =>
           RegExp.accepts cs c
           && RegExp.matches_at (RegExp.Atom cs true :: r) false s'
       end.
Proof. by destruct s. Qed.

Lemma matches_at_anyText_end (b : bool) (s : string) :
  RegExp.matches_at [anyText; RegExp.AssertEnd] b s = oneLine s.
Proof.
  revert b. induction s as [|c s IH]; intros b; [done|].
  unfold anyText in *. rewrite matches_at_star, IH. reflexivity.
Qed.


End more_listing.

Lemma ls_escaped_star_example_witness :
  plainText (prefix kvfs) = true
  ∧ getAllKeys (state (fresh escapeStore))
      ≡ₚ [prefix kvfs +:+ "/base**ll"; prefix kvfs +:+ "/ba*ketball";
          prefix kvfs +:+ "/basketweaving"]
  ∧ ∃ paths, fst (ls kvfs (Some "/*ba*\**ll") (fresh escapeStore)) = Ok paths
             ∧ paths ≡ₚ ["/base**ll"; "/ba*ketball"].
Proof.
  assert (getAllKeys (state (fresh escapeStore))
            ≡ₚ [prefix kvfs +:+ "/base**ll"; prefix kvfs +:+ "/ba*ketball";
                prefix kvfs +:+ "/basketweaving"]) as Hkeys.
  { vm_compute. solve_Permutation. }
  split; [reflexivity|]. split; [exact Hkeys|].
  apply (ls_escaped_star_example (S:=gmap string string) kvfs
           (fresh escapeStore)); [reflexivity|exact Hkeys].
Defined.


(** ** Where the code departs from the specification *)

(** C2: prefix isolation fails for a prefix with a character the pattern
    grammar reserves.  [regexFromSpec] escapes the segments of the spec but
    splices the prefix into the pattern as it is.  The instance with prefix
    [app.] compiles the spec [*] to [^app..*$], whose first dot accepts any
    character: the key [apple], which does not start with the prefix, is
    matched, [ls] returns it cut to [e], and [readMulti] reports an entry
    [e] that the instance never wrote. *)
Theorem ls_prefix_unescaped :
  constructor (Some "app.") = Ok appDot
  ∧ regexSource appDot (specOrStar None) = "^app..*$"
  ∧ Js.startsWith "apple" (prefix appDot) = false
  ∧ "apple" ∈ getAllKeys (state (fresh appStore))
  ∧ (∃ regex, regexFromSpec appDot (specOrStar None) = Ok regex
              ∧ RegExp.test regex "apple" = true)
  ∧ fst (ls appDot None (fresh appStore)) = Ok ["/home"; "e"]
  ∧ fst (readMulti (T:=bool) appDot "*" (fresh appStore))
    = Ok [mkPathValue "/home" (Some true); mkPathValue "e" None].
Proof.
  split_and!; try (vm_compute; reflexivity).
  - vm_compute. apply list_elem_of_In. simpl. auto.
  - eexists. split; vm_compute; reflexivity.
Qed.

(** C3: a spec that ends in an escaped star is not anchored at the end.
    The loop of [regexFromSpec] reads the two characters backslash, star as
    a literal star of the segment, but the test for the trailing wildcard
    looks at the last character alone.  For the spec [/a\*] the segment is
    [/a*], and the pattern is [^/kvfs/a\*.*$]: [ls] returns [/a*b] besides
    [/a*]. *)
Theorem escaped_star_leaves_end_open :
  segmentsOfSpec "/a\*" = ["/a*"]
  ∧ lastIsStar "/a\*" = true
  ∧ regexSource kvfs "/a\*" = "^/kvfs/a\*.*$"
  ∧ (∃ regex, regexFromSpec kvfs "/a\*" = Ok regex
              ∧ RegExp.test regex "/kvfs/a*b" = true)
  ∧ fst (ls kvfs (Some "/a\*") (fresh starStore)) = Ok ["/a*b"; "/a*"].
Proof.
  split_and!; try (vm_compute; reflexivity).
  eexists. split; vm_compute; reflexivity.
Qed.

(** * Further properties of the class *)

(** ** Point operations: [read], [write], [rm] *)

Section point_operations.
Context {S : Type} `{KeyValueStoreContract S} {T : Type} `{Json T}.
Variable this : KeyValueFileSystem.

Lemma rm_run (path : string) (w : World S) :
  path ≠ "" →
  rm this path w
  = (Ok tt,
     mkWorld (removeItem (state w) (prefix this +:+ path))
       (calls w ++ [CallRemoveItem (prefix this +:+ path)])).
Proof.
  intros Hne. unfold rm. rewrite (validatePath_nonempty _ Hne).
  by run_action.
Qed.

Lemma read_world (path : string) (w : World S) :
  path ≠ "" →
  snd (read (T:=T) this path w) = called (CallGetItem (prefix this +:+ path)) w.
Proof.
  intros Hne. unfold read. rewrite (validatePath_nonempty _ Hne).
  run_action.
  destruct (getItem (state w) (prefix this +:+ path)) as [text|]; [|done].
  by destruct (JSON_parse text).
Qed.

(** X5: [rm] of a path that is not empty completes with the one store
    call [removeItem(prefix + path)], whether the key is there or not.
    Afterwards that one key is absent, [read] of the path returns [null],
    and every other key reads as before: the path is taken literally,
    whatever characters it holds, stars included.  When the key was absent
    the store reads as before at every key. *)
Theorem rm_removes_one_key (path : string) (w : World S) :
  path ≠ "" →
  fst (rm this path w) = Ok tt
  ∧ calls (snd (rm this path w))
    = calls w ++ [CallRemoveItem (prefix this +:+ path)]
  ∧ (∀ key,
       getItem (state (snd (rm this path w))) key
       = if decide (key = prefix this +:+ path) then None
         else getItem (state w) key)
  ∧ fst (read (T:=T) this path (snd (rm this path w))) = Ok None
  ∧ (getItem (state w) (prefix this +:+ path) = None →
     ∀ key, getItem (state (snd (rm this path w))) key
            = getItem (state w) key).
Proof.
  intros Hne. rewrite (rm_run _ _ Hne). cbn [fst snd state calls].
  split_and!; [done|done|..].
  - intros key. apply getItem_removeItem.
  - rewrite (read_run _ _ _ Hne). cbn [state].
    by rewrite getItem_removeItem, decide_True.
  - intros Habsent key. rewrite getItem_removeItem.
    case_decide as Hkey; [by rewrite Hkey|done].
Qed.

(** X6: [read] of a path that is not empty never changes the store and
    makes the one store call [getItem(prefix + path)].  It returns [null]
    when the key is absent, the decoded value when the stored text decodes,
    and throws the error of [JSON.parse] when it does not; that includes a
    stored empty text, which [read] hands to [JSON.parse] although
    [readMulti] reports it as [null]. *)
Theorem read_outcomes (path : string) (w : World S) :
  path ≠ "" →
  snd (read (T:=T) this path w)
  = called (CallGetItem (prefix this +:+ path)) w
  ∧ (getItem (state w) (prefix this +:+ path) = None →
     fst (read (T:=T) this path w) = Ok None)
  ∧ (∀ text v,
       getItem (state w) (prefix this +:+ path) = Some text →
       JSON_parse text = Some v →
       fst (read this path w) = Ok (Some v))
  ∧ (∀ text,
       getItem (state w) (prefix this +:+ path) = Some text →
       JSON_parse (T:=T) text = None →
       fst (read (T:=T) this path w) = Throw (SyntaxError text))
  ∧ (getItem (state w) (prefix this +:+ path) = Some "" →
     JSON_parse (T:=T) "" = None →
     fst (read (T:=T) this path w) = Throw (SyntaxError "")
     ∧ decodeEntry (T:=T) this
         (prefix this +:+ path, getItem (state w) (prefix this +:+ path))
       = Ok (mkPathValue path None)).
Proof.
  intros Hne. split; [by apply read_world|].
  rewrite (read_run _ _ _ Hne). split_and!.
  - by intros ->.
  - by intros text v -> ->.
  - by intros text -> ->.
  - intros -> ->. split; [done|]. cbn. by rewrite slice_append.
Qed.

(** X7: [write] of a path that is not empty changes the one key
    [prefix + path] and no other: a key that does not start with the
    prefix reads as before, and so does [read] of every other path.  A
    second [write] of the same path replaces the value of the first. *)
Theorem write_changes_one_key (path : string) (v : T) (w : World S) :
  path ≠ "" →
  (∀ key,
     getItem (state (snd (write this path v w))) key
     = if decide (key = prefix this +:+ path) then Some (JSON_stringify v)
       else getItem (state w) key)
  ∧ (∀ key, Js.startsWith key (prefix this) = false →
            getItem (state (snd (write this path v w))) key
            = getItem (state w) key)
  ∧ (∀ other, other ≠ "" → other ≠ path →
              fst (read (T:=T) this other (snd (write this path v w)))
              = fst (read this other w))
  ∧ (∀ v', JSON_parse (JSON_stringify v') = Some v' →
           fst (read this path
                  (snd (write this path v' (snd (write this path v w)))))
           = Ok (Some v')).
Proof.
  intros Hne. rewrite (write_run _ _ _ _ Hne). cbn [snd state].
  split_and!.
  - intros key. apply getItem_setItem.
  - intros key Hkey. rewrite getItem_setItem, decide_False; [done|].
    intros ->. by rewrite startsWith_append in Hkey.
  - intros other Hother Hdiff. rewrite !(read_run _ _ _ Hother). cbn [state].
    rewrite getItem_setItem, decide_False; [done|].
    by intros ?%(inj (String.app _)).
  - intros v' Hcodec. rewrite (write_run _ _ _ _ Hne), (read_run _ _ _ Hne).
    cbn [snd state]. rewrite getItem_setItem, decide_True by done.
    by rewrite Hcodec.
Qed.

End point_operations.

(** ** Batched operations *)

Lemma getItem_foldl_setItem_other {S : Type} `{KeyValueStoreContract S}
    (s : S) (kvs : list (string * string)) (k : string) :
  k ∉ kvs.*1 →
  getItem (foldl (λ s' kv, setItem s' kv.1 kv.2) s kvs) k = getItem s k.
Proof.
  revert s. induction kvs as [|[k0 v0] kvs IH]; intros s Hk; [done|].
  cbn [foldl fmap list_fmap fst snd] in *.
  apply not_elem_of_cons in Hk as [Hne Hk].
  rewrite (IH _ Hk), getItem_setItem. by rewrite decide_False.
Qed.

Lemma getItem_foldl_setItem_NoDup {S : Type} `{KeyValueStoreContract S}
    (s : S) (kvs : list (string * string)) (k v : string) :
  NoDup kvs.*1 → (k, v) ∈ kvs →
  getItem (foldl (λ s' kv, setItem s' kv.1 kv.2) s kvs) k = Some v.
Proof.
  revert s. induction kvs as [|[k0 v0] kvs IH]; intros s Hnodup Hin.
  - by apply elem_of_nil in Hin.
  - cbn [foldl fmap list_fmap fst snd] in *.
    apply NoDup_cons in Hnodup as [Hk0 Hnodup].
    apply elem_of_cons in Hin as [[= -> ->]|Hin].
    + rewrite (getItem_foldl_setItem_other _ _ _ Hk0), getItem_setItem.
      by rewrite decide_True.
    + by apply IH.
Qed.

Section batched_operations.
Context {S : Type} `{KeyValueStoreContract S} {T : Type} `{Json T}.
Variable this : KeyValueFileSystem.

Lemma mapM_encodeEntry_valid (basePath : option string)
    (values : list (PathValue T)) :
  Forall (λ entry, fullPathOf basePath (path entry) ≠ "") values →
  mapM (encodeEntry this basePath) values
  = Ok (keyValuesOf this basePath values).
Proof.
  induction 1 as [|entry values Hentry _ IH]; [done|].
  rewrite mapM_cons, (encodeEntry_nonempty _ _ _ Hentry), IH. done.
Qed.

Lemma writeMulti_run (basePath : option string) (values : list (PathValue T))
    (w : World S) :
  values ≠ [] →
  Forall (λ entry, fullPathOf basePath (path entry) ≠ "") values →
  writeMulti this basePath values w
  = (Ok tt,
     mkWorld (multiSet (state w) (keyValuesOf this basePath values))
       (calls w ++ [CallMultiSet (keyValuesOf this basePath values)])).
Proof.
  intros Hne Hvalid. unfold writeMulti.
  destruct values as [|entry values]; [done|]. cbn [length Nat.eqb].
  run_action. by rewrite (mapM_encodeEntry_valid _ _ Hvalid).
Qed.

Lemma writes_in_turn_state (basePath : option string)
    (values : list (PathValue T)) (w : World S) :
  Forall (λ entry, fullPathOf basePath (path entry) ≠ "") values →
  state (writesInTurn this basePath values w)
  = foldl (λ s' kv, setItem s' kv.1 kv.2) (state w)
      (keyValuesOf this basePath values).
Proof.
  intros Hvalid. revert w.
  induction Hvalid as [|entry values Hentry _ IH]; intros w; [done|].
  cbn [writesInTurn foldl keyValuesOf fmap list_fmap].
  unfold writesInTurn in IH. rewrite IH.
  by rewrite (write_run _ _ _ _ Hentry).
Qed.

(** X8: [writeMulti] on entries whose combined paths are all non-empty
    completes with the one store call [multiSet].  Afterwards every key
    that is not [prefix + combined path] of an entry reads as before; when
    the combined paths are pairwise distinct, [read] of each returns the
    value of its entry; and at every key the store reads as it would after
    [write] of the entries one after another. *)
Theorem writeMulti_then_read (basePath : option string)
    (values : list (PathValue T)) (w : World S) :
  values ≠ [] →
  Forall (λ entry, fullPathOf basePath (path entry) ≠ "") values →
  fst (writeMulti this basePath values w) = Ok tt
  ∧ (∀ key,
       key ∉ (λ entry, prefix this +:+ fullPathOf basePath (path entry))
               <$> values →
       getItem (state (snd (writeMulti this basePath values w))) key
       = getItem (state w) key)
  ∧ (NoDup ((λ entry, fullPathOf basePath (path entry)) <$> values) →
     ∀ entry, entry ∈ values →
       JSON_parse (JSON_stringify (value entry)) = Some (value entry) →
       fst (read this (fullPathOf basePath (path entry))
              (snd (writeMulti this basePath values w)))
       = Ok (Some (value entry)))
  ∧ (∀ key,
       getItem (state (snd (writeMulti this basePath values w))) key
       = getItem (state (writesInTurn this basePath values w)) key).
Proof.
  intros Hne Hvalid. rewrite (writeMulti_run _ _ _ Hne Hvalid).
  cbn [fst snd state]. split_and!; [done|..].
  - intros key Hkey. rewrite getItem_multiSet.
    apply getItem_foldl_setItem_other.
    unfold keyValuesOf. by rewrite <-list_fmap_compose.
  - intros Hnodup entry Hentry Hcodec.
    assert (fullPathOf basePath (path entry) ≠ "") as Hpath
      by (by eapply Forall_forall in Hvalid).
    rewrite (read_run _ _ _ Hpath). cbn [state].
    rewrite getItem_multiSet.
    rewrite (getItem_foldl_setItem_NoDup _ _ _ (JSON_stringify (value entry))).
    + by rewrite Hcodec.
    + unfold keyValuesOf. rewrite <-list_fmap_compose.
      change (NoDup ((String.app (prefix this)
                        ∘ (λ entry, fullPathOf basePath (path entry)))
                       <$> values)).
      rewrite list_fmap_compose. by apply (NoDup_fmap_2 _).
    + unfold keyValuesOf. apply list_elem_of_fmap. by exists entry.
  - intros key. by rewrite getItem_multiSet, writes_in_turn_state.
Qed.

(** X9: [rmAllForce] empties the namespace.  Afterwards no key that
    starts with the prefix holds a value, the store lists exactly the keys
    it listed before that do not start with the prefix, [ls] of every spec
    returns no path (for a prefix that reads as itself in a pattern), and a
    second [rmAllForce] changes nothing. *)
Theorem rmAllForce_empties_namespace (w : World S) :
  (∀ key, Js.startsWith key (prefix this) = true →
          getItem (state (snd (rmAllForce this w))) key = None)
  ∧ (∀ key, key ∈ getAllKeys (state (snd (rmAllForce this w)))
            ↔ key ∈ getAllKeys (state w)
              ∧ Js.startsWith key (prefix this) = false)
  ∧ (plainText (prefix this) = true →
     ∀ spec, fst (ls this spec (snd (rmAllForce this w))) = Ok [])
  ∧ (∀ key,
       getItem
         (state (snd (rmAllForce this (snd (rmAllForce this w))))) key
       = getItem (state (snd (rmAllForce this w))) key).
Proof.
  assert (∀ key, Js.startsWith key (prefix this) = true →
                 getItem (state (snd (rmAllForce this w))) key = None)
    as Hgone.
  { intros key Hkey. rewrite rmAllForce_run. cbn [snd state].
    rewrite getItem_multiRemove. case_decide as Hin; [done|].
    destruct (getItem (state w) key) as [text|] eqn:Htext; [|done].
    exfalso. apply Hin, list_elem_of_filter. split; [done|].
    apply elem_of_getAllKeys. by rewrite Htext. }
  assert (∀ key, Js.startsWith key (prefix this) = false →
                 getItem (state (snd (rmAllForce this w))) key
                 = getItem (state w) key) as Hkept.
  { intros key Hkey. rewrite rmAllForce_run. cbn [snd state].
    rewrite getItem_multiRemove. case_decide as Hin; [|done].
    apply list_elem_of_filter in Hin as [Hstarts _]. congruence. }
  assert (∀ key, key ∈ getAllKeys (state (snd (rmAllForce this w)))
                 ↔ key ∈ getAllKeys (state w)
                   ∧ Js.startsWith key (prefix this) = false) as Hkeys.
  { intros key. rewrite !elem_of_getAllKeys.
    destruct (Js.startsWith key (prefix this)) eqn:Hkey.
    - rewrite (Hgone _ Hkey). split; [by intros [? ?]|by intros [_ ?]].
    - rewrite (Hkept _ Hkey). split; [by intros ?|by intros [? _]]. }
  split_and!; [done|done|..].
  - intros Hplain spec. rewrite (ls_plain _ _ _ Hplain). cbn [fst].
    f_equal.
    destruct (filter _ (getAllKeys (state (snd (rmAllForce this w)))))
      as [|key keys] eqn:Hfilter; [done|].
    assert (key ∈ key :: keys) as Hin by left.
    rewrite <-Hfilter in Hin.
    apply list_elem_of_filter in Hin as [Htest Hin].
    apply test_globTerms_inv in Htest as [rest ->].
    apply Hkeys in Hin as [_ Hstarts].
    by rewrite startsWith_append in Hstarts.
  - intros key. rewrite (rmAllForce_run _ (snd (rmAllForce this w))).
    cbn [snd state]. rewrite getItem_multiRemove.
    case_decide as Hin; [|done].
    apply list_elem_of_filter in Hin as [Hstarts _].
    symmetry. by apply Hgone.
Qed.

End batched_operations.

(** ** The segments of a spec *)

Lemma scanSpec_escape (next : ascii) (rest : string) (segments : list string)
    (curSegment : string) :
  scanSpec (String "\" (String next rest)) segments curSegment
  = scanSpec rest segments (curSegment +:+ String next "").
Proof. reflexivity. Qed.

Lemma scanSpec_star (rest : string) (segments : list string)
    (curSegment : string) :
  scanSpec (String "*" rest) segments curSegment
  = if negb (String.length curSegment =? 0)
    then scanSpec rest (segments ++ [curSegment]) ""
    else scanSpec rest segments curSegment.
Proof. reflexivity. Qed.

(** Induction along the steps of the loop: nothing left, a lone backslash,
    an escape, a star, any other character. *)
Lemma scanSpec_ind (P : string → Prop) :
  P "" →
  P "\" →
  (∀ next rest, P rest → P (String "\" (String next rest))) →
  (∀ rest, P rest → P (String "*" rest)) →
  (∀ c rest, c ≠ "\"%char → c ≠ "*"%char → P rest → P (String c rest)) →
  ∀ spec, P spec.
Proof.
  intros Hnil Hlone Hescape Hstar Hchar spec.
  remember (String.length spec) as n eqn:Hn. revert spec Hn.
  induction (lt_wf n) as [n _ IH]; intros spec ->.
  destruct spec as [|c spec]; [done|].
  destruct (decide (c = "\"%char)) as [->|Hesc].
  - destruct spec as [|next spec]; [done|].
    apply Hescape, (IH (String.length spec)); [simpl; lia|done].
  - destruct (decide (c = "*"%char)) as [->|Hst].
    + apply Hstar, (IH (String.length spec)); [simpl; lia|done].
    + apply Hchar; [done..|].
      apply (IH (String.length spec)); [simpl; lia|done].
Qed.

Lemma append_nonempty_r (a b : string) : b ≠ "" → a +:+ b ≠ "".
Proof. destruct a; [done|]. by rewrite append_cons. Qed.

Lemma length_zero_iff (s : string) : (String.length s =? 0) = true ↔ s = "".
Proof. by destruct s. Qed.

Lemma scanSpec_segments_nonempty (spec : string) :
  ∀ segments curSegment,
    Forall (λ seg, seg ≠ "") segments →
    Forall (λ seg, seg ≠ "") (scanSpec spec segments curSegment).1.
Proof.
  induction spec as [| |next rest IH|rest IH|c rest Hesc Hst IH]
    using scanSpec_ind; intros segments curSegment Hsegments.
  - done.
  - done.
  - rewrite scanSpec_escape. by apply IH.
  - rewrite scanSpec_star.
    destruct (String.length curSegment =? 0) eqn:Hcur; cbn [negb].
    + by apply IH.
    + apply IH, Forall_app. split; [done|].
      apply Forall_singleton. intros ->. done.
  - rewrite (proj1 (scanSpec_char c rest segments curSegment Hesc Hst)).
    by apply IH.
Qed.

(** Reading [a] and then [b] is reading the two in a row, as long as [a]
    does not end inside an escape. *)
Lemma scanSpec_app (a b : string) :
  danglingEscape a = false →
  ∀ segments curSegment,
    scanSpec (a +:+ b) segments curSegment
    = scanSpec b (scanSpec a segments curSegment).1
        (scanSpec a segments curSegment).2.
Proof.
  induction a as [| |next rest IH|rest IH|c rest Hesc Hst IH]
    using scanSpec_ind; intros Ha segments curSegment.
  - done.
  - done.
  - rewrite !append_cons, !scanSpec_escape. by apply IH.
  - rewrite append_cons, !scanSpec_star.
    destruct (negb (String.length curSegment =? 0)); by apply IH.
  - rewrite append_cons.
    rewrite (proj1 (scanSpec_char c _ segments curSegment Hesc Hst)).
    rewrite (proj1 (scanSpec_char c rest segments curSegment Hesc Hst)).
    rewrite (proj2 (scanSpec_char c rest segments curSegment Hesc Hst)) in Ha.
    by apply IH.
Qed.

Lemma lastIsStar_app (a b : string) :
  b ≠ "" → lastIsStar (a +:+ b) = lastIsStar b.
Proof.
  intros Hb. unfold lastIsStar. induction a as [|c a IH]; [done|].
  rewrite append_cons.
  destruct (a +:+ b) as [|d rest] eqn:Hab.
  { by destruct (append_nonempty_r a b Hb). }
  cbn [String.length Nat.sub String.get] in *.
  by rewrite Nat.sub_0_r in *.
Qed.

Lemma specOrStar_nonempty (spec : string) :
  spec ≠ "" → specOrStar (Some spec) = spec.
Proof. by destruct spec. Qed.

Section segments.
Context {S : Type} `{KeyValueStore S}.
Variable this : KeyValueFileSystem.

(** X10: the segments of a spec.  No segment is ever empty, whatever the
    spec.  A run of two stars reads as one star wherever it stands (after
    text that does not end inside an escape): the segments and the pattern
    are the same, and [ls] of the one spec is [ls] of the other. *)
Theorem segments_of_spec (spec : string) (w : World S) :
  Forall (λ seg, seg ≠ "") (segmentsOfSpec spec)
  ∧ (∀ a b,
       danglingEscape a = false →
       segmentsOfSpec (a +:+ "**" +:+ b) = segmentsOfSpec (a +:+ "*" +:+ b)
       ∧ regexSource this (a +:+ "**" +:+ b)
         = regexSource this (a +:+ "*" +:+ b)
       ∧ ls this (Some (a +:+ "**" +:+ b)) w
         = ls this (Some (a +:+ "*" +:+ b)) w).
Proof.
  split.
  - unfold segmentsOfSpec.
    pose proof (scanSpec_segments_nonempty spec [] "" (Forall_nil_2 _))
      as Hsegments.
    destruct (scanSpec spec [] "") as [segments curSegment].
    cbn [fst] in Hsegments.
    destruct (String.length curSegment =? 0) eqn:Hcur; cbn [negb]; [done|].
    apply Forall_app. split; [done|].
    apply Forall_singleton. by intros ->.
  - intros a b Ha.
    assert (segmentsOfSpec (a +:+ "**" +:+ b)
            = segmentsOfSpec (a +:+ "*" +:+ b)) as Hsegments.
    { unfold segmentsOfSpec. rewrite !(scanSpec_app a _ Ha).
      change ("**" +:+ b) with (String "*" (String "*" b)).
      change ("*" +:+ b) with (String "*" b).
      rewrite !scanSpec_star. cbn [String.length Nat.eqb negb].
      by destruct (negb (String.length (scanSpec a [] "").2 =? 0)). }
    assert (regexSource this (a +:+ "**" +:+ b)
            = regexSource this (a +:+ "*" +:+ b)) as Hsource.
    { unfold regexSource. rewrite Hsegments.
      assert (lastIsStar (a +:+ "**" +:+ b) = lastIsStar (a +:+ "*" +:+ b))
        as ->; [|done].
      rewrite !(lastIsStar_app a) by done.
      change ("**" +:+ b) with ("*" +:+ "*" +:+ b).
      by rewrite (lastIsStar_app "*" ("*" +:+ b)). }
    split_and!; [done..|].
    rewrite !ls_run, !specOrStar_nonempty by by apply append_nonempty_r.
    unfold regexFromSpec. by rewrite Hsource.
Qed.

End segments.

(** ** What a glob matches *)

Lemma matches_at_startFree (r : RegExp.t) (b b' : bool) (s : string) :
  startFree r → RegExp.matches_at r b s = RegExp.matches_at r b' s.
Proof.
  intros Hr. revert b b' s.
  induction Hr as [|term r Hterm _ IH]; intros b b' s; [done|].
  destruct term as [| |cs [|]]; [done| | |].
  - destruct s; [|done]. cbn [RegExp.matches_at]. apply IH.
  - by rewrite !(matches_at_star cs r), (IH b b').
  - done.
Qed.

Lemma startFree_literal (s : string) : startFree (literal s).
Proof. induction s; constructor; done. Qed.

Lemma startFree_globSegments (segments : list string) :
  startFree (globSegments segments).
Proof.
  induction segments as [|seg [|seg' segments] IH].
  - constructor.
  - apply startFree_literal.
  - change (globSegments (seg :: seg' :: segments))
      with (literal seg ++ anyText :: globSegments (seg' :: segments)).
    apply Forall_app. split; [apply startFree_literal|].
    by constructor.
Qed.

Lemma startFree_end (open : bool) :
  startFree ((if open then [anyText] else []) ++ [RegExp.AssertEnd]).
Proof. destruct open; repeat constructor; done. Qed.

Lemma matches_at_literal_iff (p : string) (r : RegExp.t) (b : bool)
    (s : string) :
  startFree r →
  RegExp.matches_at (literal p ++ r) b s = true
  ↔ ∃ x, s = p +:+ x ∧ RegExp.matches_at r false x = true.
Proof.
  intros Hr. split.
  - intros Hs. destruct (matches_at_literal_inv _ _ _ _ Hs) as [x ->].
    exists x. split; [done|]. rewrite matches_at_literal in Hs.
    by rewrite (matches_at_startFree r false
                  (b && (String.length p =? 0)) x Hr).
  - intros (x & -> & Hx). rewrite matches_at_literal.
    by rewrite (matches_at_startFree r
                  (b && (String.length p =? 0)) false x Hr).
Qed.

Lemma oneLine_app (a b : string) :
  oneLine (a +:+ b) = oneLine a && oneLine b.
Proof.
  induction a as [|c a IH]; [done|]. rewrite append_cons. cbn [oneLine].
  by rewrite IH, andb_assoc.
Qed.

(** [.*] before [r]: some text without line terminator, then [r]. *)
Lemma matches_at_anyText_iff (r : RegExp.t) (b : bool) (s : string) :
  startFree r →
  RegExp.matches_at (anyText :: r) b s = true
  ↔ ∃ gap x, s = gap +:+ x ∧ oneLine gap = true
             ∧ RegExp.matches_at r false x = true.
Proof.
  intros Hr. unfold anyText. split.
  - revert b. induction s as [|c s IH]; intros b;
      rewrite matches_at_star; intros [Hs|Hs]%orb_prop.
    + exists "", "". by rewrite <-(matches_at_startFree r b false "" Hr).
    + done.
    + exists "", (String c s).
      by rewrite <-(matches_at_startFree r b false _ Hr).
    + apply andb_prop in Hs as [Hc Hs].
      destruct (IH _ Hs) as (gap & x & -> & Hgap & Hx).
      exists (String c gap), x. split_and!; [done| |done].
      cbn [oneLine]. cbn [RegExp.accepts] in Hc. by rewrite Hc, Hgap.
  - intros (gap & x & -> & Hgap & Hx). revert b.
    induction gap as [|c gap IH]; intros b; rewrite matches_at_star.
    + rewrite append_nil_l.
      by rewrite (matches_at_startFree r b false x Hr), Hx.
    + rewrite append_cons. cbn [oneLine] in Hgap.
      apply andb_prop in Hgap as [Hc Hgap].
      cbn [RegExp.accepts]. rewrite Hc, (IH Hgap). apply orb_true_r.
Qed.

Lemma matches_at_glob_end (open : bool) (b : bool) (s : string) :
  RegExp.matches_at ((if open then [anyText] else []) ++ [RegExp.AssertEnd])
    b s = true
  ↔ if open then oneLine s = true else s = "".
Proof.
  destruct open; cbn [app].
  - by rewrite matches_at_anyText_end.
  - apply matches_at_end.
Qed.

(** The terms of a glob, read after the prefix, accept a text exactly when
    the glob asks for it. *)
Lemma matches_at_glob (segments : list string) (open : bool) (b : bool)
    (rest : string) :
  RegExp.matches_at
    (globSegments segments ++ (if open then [anyText] else [])
       ++ [RegExp.AssertEnd]) b rest = true
  ↔ globMatches segments open rest.
Proof.
  revert b rest.
  induction segments as [|seg [|seg' segments] IH]; intros b rest.
  - apply matches_at_glob_end.
  - cbn [globSegments globMatches].
    rewrite matches_at_literal_iff by apply startFree_end.
    by setoid_rewrite matches_at_glob_end.
  - change (globSegments (seg :: seg' :: segments))
      with (literal seg ++ anyText :: globSegments (seg' :: segments)).
    change (globMatches (seg :: seg' :: segments) open rest)
      with (∃ gap rest', rest = seg +:+ gap +:+ rest'
                         ∧ oneLine gap = true
                         ∧ globMatches (seg' :: segments) open rest').
    rewrite <-(assoc_L (++)).
    assert (startFree (globSegments (seg' :: segments)
                         ++ (if open then [anyText] else [])
                         ++ [RegExp.AssertEnd])) as Hfree.
    { apply Forall_app. split;
        [apply startFree_globSegments|apply startFree_end]. }
    rewrite matches_at_literal_iff.
    2:{ constructor; [done|exact Hfree]. }
    split.
    + intros (x & -> & (gap & rest' & -> & Hgap & Hrest)%matches_at_anyText_iff);
        [|exact Hfree].
      exists gap, rest'. split_and!; [done..|]. by apply (IH false).
    + intros (gap & rest' & -> & Hgap & Hrest).
      exists (gap +:+ rest'). split; [done|].
      apply matches_at_anyText_iff; [exact Hfree|].
      exists gap, rest'. split_and!; [done..|]. by apply IH.
Qed.

Lemma test_globTerms_iff (pre : string) (segments : list string)
    (open : bool) (key : string) :
  RegExp.test (globTerms pre segments open) key = true
  ↔ ∃ rest, key = pre +:+ rest ∧ globMatches segments open rest.
Proof.
  split.
  - intros Hkey. destruct (test_globTerms_inv _ _ _ _ Hkey) as [rest ->].
    exists rest. split; [done|].
    rewrite test_globTerms in Hkey. by apply matches_at_glob in Hkey.
  - intros (rest & -> & Hrest). rewrite test_globTerms.
    by apply matches_at_glob.
Qed.

Section glob_semantics.
Context {S : Type} `{KeyValueStore S}.
Variable this : KeyValueFileSystem.



End glob_semantics.

Section written_is_listed.
Context {S : Type} `{KeyValueStoreContract S} {T : Type} `{Json T}.
Variable this : KeyValueFileSystem.


End written_is_listed.

(** ** Literal specs and escaping *)

Lemma noWildcard_cons (c : ascii) (s : string) :
  noWildcard (String c s) = true →
  c ≠ "\"%char ∧ c ≠ "*"%char ∧ noWildcard s = true.
Proof.
  destruct c as [[] [] [] [] [] [] [] []]; cbn [noWildcard]; intros Hc;
    solve [discriminate Hc | split_and!; done].
Qed.

Lemma scanSpec_noWildcard (p : string) (segments : list string)
    (curSegment : string) :
  noWildcard p = true →
  scanSpec p segments curSegment = (segments, curSegment +:+ p).
Proof.
  revert curSegment. induction p as [|c p IH]; intros curSegment Hp.
  - by rewrite append_nil_r.
  - apply noWildcard_cons in Hp as (Hesc & Hst & Hp).
    rewrite (proj1 (scanSpec_char c p segments curSegment Hesc Hst)).
    rewrite (IH _ Hp). by rewrite append_assoc.
Qed.

Lemma lastIsStar_noWildcard (p : string) :
  noWildcard p = true → lastIsStar p = false.
Proof.
  induction p as [|c p IH]; intros Hp; [done|].
  apply noWildcard_cons in Hp as (_ & Hst & Hp).
  destruct p as [|d p].
  - unfold lastIsStar. cbn. apply bool_decide_eq_false_2. congruence.
  - change (String c (String d p)) with (String c "" +:+ String d p).
    rewrite lastIsStar_app by done. by apply IH.
Qed.

Section literal_specs.
Context {S : Type} `{KeyValueStoreContract S}.
Variable this : KeyValueFileSystem.

(** X13: a spec without star and backslash is an existence test.  For a
    non-empty such spec [p] (and a prefix that reads as itself in a
    pattern) the only segment is [p] itself, the matcher accepts the key
    [prefix + p] and no other, and [ls(p)] returns the one path [p] when
    the store holds that key and no path when it does not. *)
Theorem ls_literal_path (p : string) (w : World S) :
  plainText (prefix this) = true →
  noWildcard p = true →
  p ≠ "" →
  segmentsOfSpec p = [p]
  ∧ (∃ regex, regexFromSpec this p = Ok regex
              ∧ ∀ key, RegExp.test regex key = true
                       ↔ key = prefix this +:+ p)
  ∧ fst (ls this (Some p) w)
    = Ok (if decide (is_Some (getItem (state w) (prefix this +:+ p)))
          then [p] else []).
Proof.
  intros Hplain Hp Hne.
  assert (segmentsOfSpec p = [p]) as Hsegments.
  { unfold segmentsOfSpec. rewrite (scanSpec_noWildcard _ _ _ Hp).
    rewrite append_nil_l. by destruct p. }
  assert (∀ key,
            RegExp.test (globTerms (prefix this) [p] false) key = true
            ↔ key = prefix this +:+ p) as Htest.
  { intros key. rewrite test_globTerms_iff. cbn [globMatches]. split.
    - intros (rest & -> & tail & -> & ->). by rewrite append_nil_r.
    - intros ->. exists p. split; [done|]. exists "".
      by rewrite append_nil_r. }
  split; [done|]. split.
  - eexists. split; [|exact Htest].
    unfold regexFromSpec.
    by rewrite compile_regexSource, Hsegments, lastIsStar_noWildcard.
  - rewrite (ls_plain _ _ _ Hplain). cbn [fst].
    rewrite (specOrStar_nonempty _ Hne), Hsegments,
      (lastIsStar_noWildcard _ Hp).
    rewrite (filter_only _ (prefix this +:+ p) _ (getAllKeys_NoDup _) Htest).
    f_equal.
    destruct (decide (prefix this +:+ p ∈ getAllKeys (state w)))
      as [Hin|Hin]; cbn [fmap list_fmap].
    + rewrite slice_append, decide_True; [done|].
      by apply elem_of_getAllKeys.
    + rewrite decide_False; [done|]. by rewrite <-elem_of_getAllKeys.
Qed.

End literal_specs.

(** X14: escaping a segment.  Whatever characters a segment holds, its
    escaped text compiles as a pattern, and to terms that match the text of
    the segment character by character: a text is accepted exactly when it
    begins with the segment, and between [^] and [$] exactly when it is the
    segment. *)
Theorem escaped_segment_is_literal (seg : string) :
  RegExp.compile (Js.replace_escaping regexSpecial seg) = Some (literal seg)
  ∧ (∀ b s, RegExp.matches_at (literal seg) b s = true
            ↔ ∃ rest, s = seg +:+ rest)
  ∧ (∀ key, RegExp.test (RegExp.AssertStart :: literal seg
                           ++ [RegExp.AssertEnd]) key = true
            ↔ key = seg).
Proof.
  split_and!.
  - unfold RegExp.compile.
    rewrite <-(append_nil_r (Js.replace_escaping regexSpecial seg)).
    rewrite tokens_escaped. cbn [RegExp.tokens fmap option_fmap option_map].
    cbn [mbind option_bind].
    rewrite (terms_literal seg [] I).
    cbn [RegExp.terms fmap option_fmap option_map].
    by rewrite (right_id_L [] (++)).
  - intros b s. rewrite <-(right_id_L [] (++) (literal seg)).
    rewrite matches_at_literal_iff by constructor.
    split; [intros (x & -> & _); by exists x|].
    intros [rest ->]. by exists rest.
  - intros key. rewrite test_anchored.
    rewrite matches_at_literal_iff by (repeat constructor; done).
    split.
    + intros (x & -> & ->%matches_at_end). by rewrite append_nil_r.
    + intros ->. exists "". by rewrite append_nil_r.
Qed.

(** ** Construction *)

Section construction.
Context {S : Type} `{KeyValueStoreContract S}.

(** X15: the constructor and what it guards against.  Construction
    succeeds exactly when the prefix given, or [/kvfs] when none is given,
    is not empty, and the instance keeps that prefix; given the empty
    prefix it throws.  The key of a path is then never the bare path.
    Were the empty prefix let through, [rmAllForce] would leave no key of
    the store at all. *)
Theorem constructor_guards_prefix (keyNamespacePrefix : option string)
    (w : World S) :
  (∀ this, constructor keyNamespacePrefix = Ok this
           ↔ default "/kvfs" keyNamespacePrefix ≠ ""
             ∧ this = mkKeyValueFileSystem (default "/kvfs" keyNamespacePrefix))
  ∧ (keyNamespacePrefix = Some "" →
     ∃ message, constructor keyNamespacePrefix = Throw (Error message))
  ∧ constructor None = Ok (mkKeyValueFileSystem "/kvfs")
  ∧ (∀ this path, constructor keyNamespacePrefix = Ok this →
                  prefix this +:+ path ≠ path)
  ∧ (∀ key,
       getItem (state (snd (rmAllForce (mkKeyValueFileSystem "") w))) key
       = None).
Proof.
  assert (∀ this, constructor keyNamespacePrefix = Ok this
                  ↔ default "/kvfs" keyNamespacePrefix ≠ ""
                    ∧ this = mkKeyValueFileSystem
                               (default "/kvfs" keyNamespacePrefix))
    as Hconstructed.
  { intros this. unfold constructor.
    destruct (default "/kvfs" keyNamespacePrefix) as [|c p]; cbn.
    - split; [done|by intros [? _]].
    - split; [by intros [= <-]|by intros [_ ->]]. }
  split_and!; [done| | done | |].
  - intros ->. by eexists.
  - intros this path [Hne ->]%Hconstructed Hsame. cbn [prefix] in Hsame.
    apply (f_equal String.length) in Hsame. rewrite append_length in Hsame.
    destruct (default "/kvfs" keyNamespacePrefix); [done|].
    cbn [String.length] in Hsame. lia.
  - intros key. rewrite rmAllForce_run. cbn [snd state prefix].
    rewrite getItem_multiRemove. case_decide as Hin; [done|].
    destruct (getItem (state w) key) as [text|] eqn:Htext; [|done].
    exfalso. apply Hin, list_elem_of_filter. split.
    + unfold Js.startsWith. by destruct key.
    + apply elem_of_getAllKeys. by rewrite Htext.
Qed.

End construction.

(** ** Listing and reading many *)

Section listing_and_reading.
Context {S : Type} `{KeyValueStoreContract S} {T : Type} `{Json T}.
Variable this : KeyValueFileSystem.

Lemma readMulti_world (spec : string) (w : World S) :
  snd (readMulti (T:=T) this spec w)
  = match fst (ls this (Some spec) w) with
    | Ok paths =>
        called (CallMultiGet ((λ key, prefix this +:+ key) <$> paths))
          (called CallGetAllKeys w)
    | Throw _ => called CallGetAllKeys w
    end.
Proof.
  unfold readMulti. run_action. rewrite !ls_run.
  by destruct (regexFromSpec this (specOrStar (Some spec))).
Qed.

(** X16: [ls] and [readMulti] only read.  Whatever the spec, [ls] leaves
    the state of the store as it is and makes the one call [getAllKeys];
    [readMulti] leaves the state as it is and makes the call [getAllKeys]
    and then, unless the pattern did not compile, the one call [multiGet]
    with [prefix + path] for each path of [ls], in order.  When the pattern
    does not compile [readMulti] throws what [ls] throws. *)
Theorem listing_only_reads (spec : option string) (s : string)
    (w : World S) :
  snd (ls this spec w) = called CallGetAllKeys w
  ∧ state (snd (readMulti (T:=T) this s w)) = state w
  ∧ (∀ paths,
       fst (ls this (Some s) w) = Ok paths →
       calls (snd (readMulti (T:=T) this s w))
       = calls w
           ++ [CallGetAllKeys;
               CallMultiGet ((λ key, prefix this +:+ key) <$> paths)])
  ∧ (∀ e,
       fst (ls this (Some s) w) = Throw e →
       readMulti (T:=T) this s w = (Throw e, called CallGetAllKeys w)).
Proof.
  split_and!.
  - rewrite ls_run. by destruct (regexFromSpec this (specOrStar spec)).
  - rewrite readMulti_world. by destruct (fst (ls this (Some s) w)).
  - intros paths Hls. rewrite readMulti_world, Hls. cbn [called calls].
    by rewrite <-(assoc_L (++)).
  - intros e Hls.
    rewrite (surjective_pairing (readMulti this s w)), readMulti_world,
      readMulti_run, Hls. done.
Qed.

Lemma decodeEntry_value (key : string) (str : option string)
    (entry : PathValue (option T)) :
  decodeEntry this (key, str) = Ok entry →
  str ≠ Some "" →
  match str with
  | Some text =>
      match JSON_parse text with
      | Some v => Ok (Some v)
      | None => Throw (SyntaxError text)
      end
  | None => Ok None
  end = Ok (value entry).
Proof.
  destruct str as [[|c text]|]; cbn; [done| |].
  - destruct (JSON_parse (String c text)); cbn; [|done]. by intros [= <-].
  - by intros [= <-].
Qed.

(** X17: [readMulti] agrees with [read].  For every entry [readMulti]
    returns whose path is not empty and whose stored text is not the empty
    text, [read] of the entry's path returns the entry's value: the value
    decoded from the text at [prefix + path], or [null] when the key is
    absent. *)
Theorem readMulti_agrees_with_read (spec : string) (w : World S)
    (entries : list (PathValue (option T))) :
  fst (readMulti this spec w) = Ok entries →
  ∀ entry,
    entry ∈ entries →
    path entry ≠ "" →
    getItem (state w) (prefix this +:+ path entry) ≠ Some "" →
    fst (read this (path entry) w) = Ok (value entry).
Proof.
  rewrite readMulti_run.
  destruct (fst (ls this (Some spec) w)) as [paths|e]; [|done].
  cbn [mbind Result_bind].
  intros Hentries%mapM_Ok_Forall2 entry Hentry Hpath Htext.
  unfold fetched in Hentries. apply Forall2_fmap_l in Hentries.
  apply list_elem_of_lookup_1 in Hentry as [i Hi].
  destruct (Forall2_lookup_r _ _ _ _ _ Hentries Hi) as (p & _ & Hdecode).
  unfold compose in Hdecode.
  pose proof (decodeEntry_path _ _ _ _ Hdecode) as Hp.
  rewrite slice_append in Hp. subst p.
  rewrite (read_run _ _ _ Hpath).
  by apply (decodeEntry_value _ _ _ Hdecode).
Qed.

End listing_and_reading.

(** ** The loop with its cursor *)

Lemma slice_at (s : string) (i : nat) :
  i < String.length s →
  ∃ c, String.get i s = Some c
       ∧ Js.slice s i = String c (Js.slice s (i + 1)).
Proof.
  revert s. induction i as [|i IH]; intros [|c s] Hi; cbn in Hi; try lia.
  - exists c. cbn. by destruct s.
  - destruct (IH s ltac:(lia)) as (d & Hget & Hslice). exists d. by cbn.
Qed.

Lemma slice_beyond (s : string) (i : nat) :
  String.length s ≤ i → String.get i s = None ∧ Js.slice s i = "".
Proof.
  revert s. induction i as [|i IH]; intros [|c s] Hi; cbn in Hi;
    try done; try lia.
  apply (IH s). lia.
Qed.

Lemma regexLoop_step (fuel : nat) (spec : string) (i : nat)
    (segments : list string) (curSegment : string) (c : ascii) :
  String.get i spec = Some c →
  i < String.length spec →
  regexLoop (S fuel) spec i segments curSegment
  = if decide (c = "\"%char)
    then regexLoop fuel spec (i + 1 + 1) segments
           (curSegment +:+ Js.text_of_index (String.get (i + 1) spec))
    else if decide (c = "*"%char)
    then if negb (String.length curSegment =? 0)
         then regexLoop fuel spec (i + 1) (segments ++ [curSegment]) ""
         else regexLoop fuel spec (i + 1) segments curSegment
    else regexLoop fuel spec (i + 1) segments
           (curSegment +:+ String c "").
Proof.
  intros Hget Hi. cbn [regexLoop].
  apply Nat.ltb_lt in Hi. rewrite Hi, Hget.
  by destruct c as [[] [] [] [] [] [] [] []].
Qed.

Lemma regexLoop_scanSpec (spec : string) (fuel i : nat)
    (segments : list string) (curSegment : string) :
  String.length spec - i ≤ fuel →
  regexLoop fuel spec i segments curSegment
  = Some (scanSpec (Js.slice spec i) segments curSegment).
Proof.
  revert i segments curSegment.
  induction fuel as [|fuel IH]; intros i segments curSegment Hfuel.
  - destruct (slice_beyond spec i ltac:(lia)) as [_ ->].
    cbn [regexLoop]. by rewrite (proj2 (Nat.ltb_ge _ _)) by lia.
  - destruct (decide (i < String.length spec)) as [Hi|Hi].
    + destruct (slice_at spec i Hi) as (c & Hget & ->).
      rewrite (regexLoop_step _ _ _ _ _ c Hget Hi).
      destruct (decide (c = "\"%char)) as [->|Hesc].
      * rewrite IH by lia.
        destruct (decide (i + 1 < String.length spec)) as [Hnext|Hnext].
        -- destruct (slice_at spec (i + 1) Hnext) as (d & -> & ->).
           by rewrite scanSpec_escape.
        -- destruct (slice_beyond spec (i + 1) ltac:(lia)) as [-> ->].
           by destruct (slice_beyond spec (i + 1 + 1) ltac:(lia)) as [_ ->].
      * destruct (decide (c = "*"%char)) as [->|Hst].
        -- rewrite scanSpec_star.
           destruct (negb (String.length curSegment =? 0)); apply IH; lia.
        -- rewrite (proj1 (scanSpec_char c _ segments curSegment Hesc Hst)).
           apply IH. lia.
    + destruct (slice_beyond spec i ltac:(lia)) as [_ ->].
      cbn [regexLoop]. by rewrite (proj2 (Nat.ltb_ge _ _)) by lia.
Qed.

(** X18: the loop of [regexFromSpec] run with its cursor.  Started at
    index 0 with no segment, the loop ends within [spec.length]
    iterations, whatever the spec, and leaves the segments and the current
    segment that reading the spec from left to right gives.  Started at any
    index [i], it ends within [spec.length - i] iterations and has read the
    text from [i] on; at or beyond the end it runs no iteration. *)
Theorem regexLoop_ends (spec : string) :
  regexLoop (String.length spec) spec 0 [] ""
  = Some (scanSpec spec [] "")
  ∧ (∀ fuel i segments curSegment,
       String.length spec - i ≤ fuel →
       regexLoop fuel spec i segments curSegment
       = Some (scanSpec (Js.slice spec i) segments curSegment))
  ∧ (∀ i segments curSegment,
       String.length spec ≤ i →
       regexLoop 0 spec i segments curSegment = Some (segments, curSegment)).
Proof.
  split_and!.
  - rewrite regexLoop_scanSpec by lia. by destruct spec.
  - intros. by apply regexLoop_scanSpec.
  - intros i segments curSegment Hi. rewrite regexLoop_scanSpec by lia.
    by destruct (slice_beyond spec i Hi) as [_ ->].
Qed.

(** ** The further properties on the in-memory store *)

Lemma rm_removes_one_key_witness :
  "/home" ≠ ""
  ∧ fst (rm kvfs "/home" (fresh sharedStore)) = Ok tt
  ∧ fst (read (T:=bool) kvfs "/home"
           (snd (rm kvfs "/home" (fresh sharedStore)))) = Ok None.
Proof.
  split; [discriminate|].
  pose proof (rm_removes_one_key (S:=gmap string string) (T:=bool) kvfs
                "/home" (fresh sharedStore) ltac:(discriminate))
    as (Hrm & _ & _ & Hread & _).
  exact (conj Hrm Hread).
Defined.

Lemma read_outcomes_witness :
  "/missing" ≠ ""
  ∧ getItem (state (fresh sharedStore)) (prefix kvfs +:+ "/missing") = None
  ∧ fst (read (T:=bool) kvfs "/missing" (fresh sharedStore)) = Ok None.
Proof.
  split; [discriminate|]. split; [reflexivity|].
  apply (proj1 (proj2 (read_outcomes (S:=gmap string string) (T:=bool) kvfs
                         "/missing" (fresh sharedStore)
                         ltac:(discriminate)))).
  reflexivity.
Defined.

Lemma write_changes_one_key_witness :
  "/home" ≠ ""
  ∧ Js.startsWith "foo" (prefix kvfs) = false
  ∧ getItem (state (snd (write kvfs "/home" false (fresh sharedStore)))) "foo"
    = getItem (state (fresh sharedStore)) "foo".
Proof.
  split; [discriminate|]. split; [reflexivity|].
  apply (proj1 (proj2 (write_changes_one_key (S:=gmap string string)
                         (T:=bool) kvfs "/home" false (fresh sharedStore)
                         ltac:(discriminate)))).
  reflexivity.
Defined.

Lemma writeMulti_then_read_witness :
  [mkPathValue "/home" true; mkPathValue "/page" false] ≠ []
  ∧ Forall (λ entry : PathValue bool,
              fullPathOf (Some "/base") (path entry) ≠ "")
      [mkPathValue "/home" true; mkPathValue "/page" false]
  ∧ fst (writeMulti kvfs (Some "/base")
           [mkPathValue "/home" true; mkPathValue "/page" false]
           (fresh sharedStore)) = Ok tt.
Proof.
  assert (Forall (λ entry : PathValue bool,
                    fullPathOf (Some "/base") (path entry) ≠ "")
            [mkPathValue "/home" true; mkPathValue "/page" false])
    as Hvalid by (repeat constructor; discriminate).
  split; [discriminate|]. split; [exact Hvalid|].
  apply (writeMulti_then_read (S:=gmap string string) (T:=bool) kvfs
           (Some "/base")
           [mkPathValue "/home" true; mkPathValue "/page" false]
           (fresh sharedStore)); [discriminate|exact Hvalid].
Defined.

Lemma rmAllForce_empties_namespace_witness :
  plainText (prefix kvfs) = true
  ∧ Js.startsWith "/kvfs/home" (prefix kvfs) = true
  ∧ getItem (state (snd (rmAllForce kvfs (fresh sharedStore)))) "/kvfs/home"
    = None
  ∧ fst (ls kvfs None (snd (rmAllForce kvfs (fresh sharedStore)))) = Ok [].
Proof.
  pose proof (rmAllForce_empties_namespace (S:=gmap string string) kvfs
                (fresh sharedStore)) as (Hgone & _ & Hls & _).
  split; [reflexivity|]. split; [reflexivity|]. split.
  - apply Hgone. reflexivity.
  - apply Hls. reflexivity.
Defined.

Lemma segments_of_spec_witness :
  danglingEscape "/a" = false
  ∧ Forall (λ seg, seg ≠ "") (segmentsOfSpec "/a**b")
  ∧ segmentsOfSpec ("/a" +:+ "**" +:+ "b") = segmentsOfSpec ("/a" +:+ "*" +:+ "b")
  ∧ ls kvfs (Some ("/a" +:+ "**" +:+ "b")) (fresh sharedStore)
    = ls kvfs (Some ("/a" +:+ "*" +:+ "b")) (fresh sharedStore).
Proof.
  pose proof (segments_of_spec (S:=gmap string string) kvfs "/a**b"
                (fresh sharedStore)) as [Hnonempty Hcollapse].
  destruct (Hcollapse "/a" "b" eq_refl) as (Hsegments & _ & Hls).
  split; [reflexivity|]. split; [exact Hnonempty|].
  split; [exact Hsegments|exact Hls].
Defined.



Lemma ls_literal_path_witness :
  plainText (prefix kvfs) = true
  ∧ noWildcard "/home" = true
  ∧ "/home" ≠ ""
  ∧ fst (ls kvfs (Some "/home") (fresh sharedStore))
    = Ok (if decide (is_Some (getItem (state (fresh sharedStore))
                                (prefix kvfs +:+ "/home")))
          then ["/home"] else []).
Proof.
  split; [reflexivity|]. split; [reflexivity|]. split; [discriminate|].
  apply (proj2 (proj2 (ls_literal_path (S:=gmap string string) kvfs "/home"
                         (fresh sharedStore) eq_refl eq_refl
                         ltac:(discriminate)))).
Defined.

Lemma constructor_guards_prefix_witness :
  constructor (Some "/test_prefix") = Ok (mkKeyValueFileSystem "/test_prefix")
  ∧ (∀ key,
       getItem
         (state (snd (rmAllForce (mkKeyValueFileSystem "")
                        (fresh sharedStore)))) key = None).
Proof.
  pose proof (constructor_guards_prefix (S:=gmap string string)
                (Some "/test_prefix") (fresh sharedStore))
    as (Hconstructed & _ & _ & _ & Hall).
  split; [|exact Hall].
  apply Hconstructed. split; [discriminate|reflexivity].
Defined.

Lemma listing_only_reads_witness :
  fst (ls kvfs (Some "*") (fresh sharedStore))
  = Ok ["/draft"; "/home"; "/page"]
  ∧ calls (snd (readMulti (T:=bool) kvfs "*" (fresh sharedStore)))
    = calls (fresh sharedStore)
        ++ [CallGetAllKeys;
            CallMultiGet ((λ key, prefix kvfs +:+ key)
                            <$> ["/draft"; "/home"; "/page"])].
Proof.
  assert (fst (ls kvfs (Some "*") (fresh sharedStore))
          = Ok ["/draft"; "/home"; "/page"]) as Hls
    by (vm_compute; reflexivity).
  split; [exact Hls|].
  apply (proj1 (proj2 (proj2 (listing_only_reads (S:=gmap string string)
                                (T:=bool) kvfs None "*"
                                (fresh sharedStore))))).
  exact Hls.
Defined.

Lemma readMulti_agrees_with_read_witness :
  fst (readMulti kvfs "*" (fresh sharedStore))
  = Ok [mkPathValue "/draft" None; mkPathValue "/home" (Some true);
        mkPathValue "/page" (Some false)]
  ∧ mkPathValue "/home" (Some true)
    ∈ [mkPathValue "/draft" None; mkPathValue "/home" (Some true);
       mkPathValue "/page" (Some false)]
  ∧ path (mkPathValue "/home" (Some true)) ≠ ""
  ∧ getItem (state (fresh sharedStore))
      (prefix kvfs +:+ path (mkPathValue "/home" (Some true))) ≠ Some ""
  ∧ fst (read kvfs (path (mkPathValue "/home" (Some true)))
           (fresh sharedStore))
    = Ok (value (mkPathValue "/home" (Some true))).
Proof.
  assert (fst (readMulti kvfs "*" (fresh sharedStore))
          = Ok [mkPathValue "/draft" None; mkPathValue "/home" (Some true);
                mkPathValue "/page" (Some false)]) as Hread
    by (vm_compute; reflexivity).
  assert (mkPathValue "/home" (Some true)
          ∈ [mkPathValue "/draft" None; mkPathValue "/home" (Some true);
             mkPathValue "/page" (Some false)]) as Hin
    by (right; left).
  split; [exact Hread|]. split; [exact Hin|].
  split; [discriminate|]. split; [discriminate|].
  apply (readMulti_agrees_with_read (S:=gmap string string) (T:=bool) kvfs
           "*" (fresh sharedStore) _ Hread _ Hin); discriminate.
Defined.

Lemma regexLoop_ends_witness :
  String.length "/a\*b" - 3 ≤ 2
  ∧ regexLoop 2 "/a\*b" 3 ["x"] "y"
    = Some (scanSpec (Js.slice "/a\*b" 3) ["x"] "y").
Proof.
  split; [vm_compute; lia|].
  apply (proj1 (proj2 (regexLoop_ends "/a\*b"))).
  vm_compute; lia.
Defined.
